(** * Black '76 pricing of SPX index options: a verification development

    Shallow embedding of [src/pricing/black76.py] (the pricing engine and its
    result type) and of the tool [price_option_black76] of [src/server.py].

    Python's [float] is idealised as the real numbers [R]: every arithmetic
    operation is exact.  The partial operations of the [math] module and of
    float division keep their failure modes ([math.log] and [math.sqrt] raise
    [ValueError] outside their domain, division by zero raises
    [ZeroDivisionError]); exceptions are values of an error monad. *)

From Stdlib Require Import Reals Lra Lia ZArith String Ascii List.
Import ListNotations.

Local Open Scope R_scope.

(** ** The error function

    [math.erf] belongs to the C library.  It is built here from the Riemann
    integral of the Gaussian bell [exp (- t²)]: [erf x] is the integral over
    [[0, x]] divided by the integral over the half line, which is shown to
    be [sqrt PI / 2] ([gauss_total_value]), so that
    [erf x = 2 / sqrt PI * gauss_int x] ([erf_integral]). *)

Module Gauss.

Definition gauss (t : R) : R := exp (- (t * t)).

Lemma gauss_pos (t : R) : 0 < gauss t.
Proof. apply exp_pos. Qed.

Lemma derivable_pt_lim_gauss (t : R) :
  derivable_pt_lim gauss t (- (2 * t) * gauss t).
Proof.
  unfold gauss.
  assert (Hin : derivable_pt_lim (fun u => - (u * u)) t (- (2 * t))).
  { replace (- (2 * t)) with (- (1 * t + t * 1)) by ring.
    apply (derivable_pt_lim_opp (fun u => u * u)).
    apply (derivable_pt_lim_mult id id); apply derivable_pt_lim_id. }
  replace (- (2 * t) * exp (- (t * t))) with (exp (- (t * t)) * - (2 * t)) by ring.
  apply (derivable_pt_lim_comp (fun u => - (u * u)) exp _ _ _ Hin).
  apply derivable_pt_lim_exp.
Qed.

Lemma gauss_continuous (t : R) : continuity_pt gauss t.
Proof.
  apply derivable_continuous_pt.
  exists (- (2 * t) * gauss t). apply derivable_pt_lim_gauss.
Qed.

Lemma gauss_integrable (a b : R) : Riemann_integrable gauss a b.
Proof.
  destruct (Rle_dec a b) as [Hab | Hab].
  - apply continuity_implies_RiemannInt; [exact Hab | intros; apply gauss_continuous].
  - apply RiemannInt_P1.
    apply continuity_implies_RiemannInt; [lra | intros; apply gauss_continuous].
Defined.

(** The integral of the bell over [[0, x]] (negative for [x < 0]). *)
Definition gauss_int (x : R) : R := RiemannInt (gauss_integrable 0 x).

Lemma gauss_int_0 : gauss_int 0 = 0.
Proof. apply RiemannInt_P9. Qed.

Lemma gauss_int_chasles (a y : R) :
  gauss_int y = gauss_int a + RiemannInt (gauss_integrable a y).
Proof.
  unfold gauss_int. symmetry. apply RiemannInt_P26.
Qed.

(** A derivative only depends on the function near the point. *)
Lemma derivable_pt_lim_local (f g : R -> R) (x l r : R) :
  0 < r ->
  (forall y, Rabs (y - x) < r -> f y = g y) ->
  derivable_pt_lim g x l -> derivable_pt_lim f x l.
Proof.
  intros Hr Heq Hg eps Heps.
  destruct (Hg eps Heps) as [d Hd].
  assert (Hm : 0 < Rmin d r) by (apply Rmin_pos; [apply cond_pos | exact Hr]).
  exists (mkposreal _ Hm). intros h Hh0 Hh. simpl in Hh.
  rewrite (Heq (x + h)), (Heq x).
  - apply Hd; [exact Hh0 |].
    apply Rlt_le_trans with (1 := Hh). apply Rmin_l.
  - replace (x - x) with 0 by ring. rewrite Rabs_R0. exact Hr.
  - replace (x + h - x) with h by ring.
    apply Rlt_le_trans with (1 := Hh). apply Rmin_r.
Qed.

(** Fundamental theorem of calculus for the bell. *)
Lemma derivable_pt_lim_gauss_int (x : R) :
  derivable_pt_lim gauss_int x (gauss x).
Proof.
  assert (Hab : x - 1 <= x + 1) by lra.
  assert (C0 : forall y, x - 1 <= y <= x + 1 -> continuity_pt gauss y)
    by (intros; apply gauss_continuous).
  pose (P := primitive Hab (FTC_P1 Hab C0)).
  apply derivable_pt_lim_local
    with (g := fun y => gauss_int (x - 1) + P y) (r := 1); [lra | |].
  - intros y Hy.
    assert (Hy' : x - 1 <= y <= x + 1).
    { apply Rabs_def2 in Hy. lra. }
    rewrite (gauss_int_chasles (x - 1) y). f_equal.
    unfold P, primitive.
    destruct (Rle_dec (x - 1) y) as [H1 | H1]; [| lra].
    destruct (Rle_dec y (x + 1)) as [H2 | H2]; [| lra].
    apply RiemannInt_P5.
  - replace (gauss x) with (0 + gauss x) by ring.
    apply (derivable_pt_lim_plus (fun _ => gauss_int (x - 1)) P).
    + apply derivable_pt_lim_const.
    + apply RiemannInt_P27; lra.
Qed.

(** Consequences of the mean value theorem on a segment. *)
Lemma mvt_increasing (f f' : R -> R) (a b : R) :
  a < b ->
  (forall c, a <= c <= b -> derivable_pt_lim f c (f' c)) ->
  (forall c, a < c < b -> 0 < f' c) ->
  f a < f b.
Proof.
  intros Hab Hd Hpos.
  destruct (MVT_cor2 f f' a b Hab Hd) as [c [Hc Hin]].
  specialize (Hpos c Hin).
  assert (0 < f' c * (b - a)) by (apply Rmult_lt_0_compat; lra).
  lra.
Qed.

Lemma mvt_nondecreasing (f f' : R -> R) (a b : R) :
  a <= b ->
  (forall c, a <= c <= b -> derivable_pt_lim f c (f' c)) ->
  (forall c, a < c < b -> 0 <= f' c) ->
  f a <= f b.
Proof.
  intros Hab Hd Hpos.
  destruct Hab as [Hab | ->]; [| lra].
  destruct (MVT_cor2 f f' a b Hab Hd) as [c [Hc Hin]].
  specialize (Hpos c Hin).
  assert (0 <= f' c * (b - a)) by (apply Rmult_le_pos; lra).
  lra.
Qed.

Lemma gauss_int_increasing (x y : R) : x < y -> gauss_int x < gauss_int y.
Proof.
  intros Hxy.
  apply mvt_increasing with (f' := gauss); [exact Hxy | |].
  - intros; apply derivable_pt_lim_gauss_int.
  - intros; apply gauss_pos.
Qed.

Lemma gauss_int_odd (x : R) : gauss_int (- x) = - gauss_int x.
Proof.
  pose (h := fun y => gauss_int (- y) + gauss_int y).
  assert (Hd : forall c, derivable_pt_lim h c ((fun _ => 0) c)).
  { intros c. unfold h.
    replace 0 with (gauss (- c) * -1 + gauss c).
    2:{ unfold gauss. replace (- c * - c) with (c * c) by ring. ring. }
    apply (derivable_pt_lim_plus (fun y => gauss_int (- y)) gauss_int).
    - apply (derivable_pt_lim_comp (fun y => - y) gauss_int).
      + apply (derivable_pt_lim_opp id). apply derivable_pt_lim_id.
      + apply derivable_pt_lim_gauss_int.
    - apply derivable_pt_lim_gauss_int. }
  assert (H0 : h 0 = 0).
  { unfold h. rewrite Ropp_0, gauss_int_0. ring. }
  assert (Hx : h x = 0).
  { destruct (Rtotal_order x 0) as [Hlt | [-> | Hgt]]; [| exact H0 |].
    - destruct (MVT_cor2 h (fun _ => 0) x 0 Hlt) as [c [Hc _]]; [intros; apply Hd |].
      lra.
    - destruct (MVT_cor2 h (fun _ => 0) 0 x Hgt) as [c [Hc _]]; [intros; apply Hd |].
      lra. }
  unfold h in Hx. lra.
Qed.

(** The bell lies under [1 / (1 + t²)], so its integral lies under [atan]. *)
Lemma gauss_le_cauchy (t : R) : gauss t <= / (1 + t ^ 2).
Proof.
  unfold gauss.
  assert (Hsq : 0 <= t * t) by apply Rle_0_sqr.
  assert (H1 : 1 + t * t <= exp (t * t)) by apply exp_ineq1_le.
  rewrite exp_Ropp. replace (t ^ 2) with (t * t) by ring.
  apply Rinv_le_contravar; lra.
Qed.

Lemma gauss_int_le_atan (x : R) : 0 <= x -> gauss_int x <= atan x.
Proof.
  intros Hx.
  pose (h := fun y => atan y - gauss_int y).
  assert (Hle : h 0 <= h x).
  { apply mvt_nondecreasing with (f' := fun y => / (1 + y ^ 2) - gauss y);
      [exact Hx | |].
    - intros c _. unfold h.
      apply (derivable_pt_lim_minus atan gauss_int).
      + apply derivable_pt_lim_atan.
      + apply derivable_pt_lim_gauss_int.
    - intros c _. pose proof (gauss_le_cauchy c). lra. }
  unfold h in Hle. rewrite atan_0, gauss_int_0 in Hle. lra.
Qed.

Lemma gauss_int_bounded (x : R) : gauss_int x <= PI / 2.
Proof.
  destruct (Rle_dec 0 x) as [Hx | Hx].
  - pose proof (gauss_int_le_atan x Hx). pose proof (atan_bound x). lra.
  - assert (gauss_int x < gauss_int 0) by (apply gauss_int_increasing; lra).
    rewrite gauss_int_0 in H. pose proof PI_RGT_0. lra.
Qed.

(** The values taken by the integral, and their least upper bound: the
    integral of the bell over the half line. *)
Definition gauss_range (y : R) : Prop := exists x, y = gauss_int x.

Lemma gauss_range_bound : bound gauss_range.
Proof.
  exists (PI / 2). intros y [x ->]. apply gauss_int_bounded.
Qed.

Lemma gauss_range_inhabited : exists y, gauss_range y.
Proof. exists (gauss_int 0), 0. reflexivity. Qed.

Definition gauss_total : R :=
  proj1_sig (completeness gauss_range gauss_range_bound gauss_range_inhabited).

Lemma gauss_total_lub : is_lub gauss_range gauss_total.
Proof.
  unfold gauss_total.
  destruct (completeness gauss_range gauss_range_bound gauss_range_inhabited).
  assumption.
Qed.

Lemma gauss_int_lt_total (x : R) : gauss_int x < gauss_total.
Proof.
  apply Rlt_le_trans with (gauss_int (x + 1)).
  - apply gauss_int_increasing; lra.
  - apply (proj1 gauss_total_lub). exists (x + 1). reflexivity.
Qed.

Lemma gauss_total_pos : 0 < gauss_total.
Proof. rewrite <- gauss_int_0. apply gauss_int_lt_total. Qed.

(** The integral comes as close to its total as wanted. *)
Lemma gauss_int_reaches (eps : R) :
  0 < eps -> exists m, forall x, m <= x -> gauss_total - eps < gauss_int x.
Proof.
  intros Heps.
  destruct (Classical_Prop.classic
              (exists m, gauss_total - eps < gauss_int m)) as [[m Hm] | Hno].
  - exists m. intros x [Hx | <-]; [| exact Hm].
    apply Rlt_trans with (1 := Hm). apply gauss_int_increasing. exact Hx.
  - exfalso.
    assert (Hub : is_upper_bound gauss_range (gauss_total - eps)).
    { intros y [x ->]. apply Rnot_lt_le. intro Hlt. apply Hno. exists x. exact Hlt. }
    pose proof (proj2 gauss_total_lub _ Hub). lra.
Qed.

(** [math.erf]. *)
Definition erf (x : R) : R := gauss_int x / gauss_total.


Lemma erf_odd (x : R) : erf (- x) = - erf x.
Proof. unfold erf. rewrite gauss_int_odd. unfold Rdiv. ring. Qed.




Lemma derivable_pt_lim_erf (x : R) :
  derivable_pt_lim erf x (gauss x / gauss_total).
Proof.
  unfold erf, Rdiv.
  replace (gauss x * / gauss_total) with (gauss x * / gauss_total + gauss_int x * 0)
    by ring.
  apply (derivable_pt_lim_mult gauss_int (fun _ => / gauss_total)).
  - apply derivable_pt_lim_gauss_int.
  - apply derivable_pt_lim_const.
Qed.

(** [erf] tends to [-1] at minus infinity. *)
Lemma erf_tail (eps : R) :
  0 < eps -> exists m, forall x, x <= m -> erf x < -1 + eps.
Proof.
  intros Heps. pose proof gauss_total_pos as HL.
  destruct (gauss_int_reaches (eps * gauss_total)) as [m Hm].
  { apply Rmult_lt_0_compat; assumption. }
  exists (- m). intros x Hx.
  assert (Hx' : m <= - x) by lra.
  specialize (Hm (- x) Hx'). rewrite gauss_int_odd in Hm.
  unfold erf. apply Rmult_lt_reg_r with gauss_total; [assumption |].
  unfold Rdiv. rewrite Rmult_assoc, Rinv_l; lra.
Qed.


(** *** The value of the integral over the half line

    The classical argument: [gauss_int x ² + kern_int x], where [kern_int x]
    is the integral over [[0, 1]] of [exp (- x² (1 + t²)) / (1 + t²)], has a
    zero derivative, is worth [PI / 4] at [0], and its second term vanishes
    at infinity. *)

Lemma Rabs_le_between (x a : R) : Rabs x <= a -> - a <= x <= a.
Proof. unfold Rabs. destruct (Rcase_abs x); lra. Qed.

(** The integral of a continuous derivative. *)
Lemma ftc_segment (f g : R -> R) (a b : R) (pr : Riemann_integrable g a b) :
  a <= b ->
  (forall x, a <= x <= b -> derivable_pt_lim f x (g x)) ->
  (forall x, a <= x <= b -> continuity_pt g x) ->
  RiemannInt pr = f b - f a.
Proof.
  intros Hab Hd Hc.
  rewrite (RiemannInt_P20 Hab (FTC_P1 Hab Hc) pr).
  set (P := primitive Hab (FTC_P1 Hab Hc)).
  assert (Hcases : a < b \/ a = b) by lra.
  destruct Hcases as [Hlt | Heq].
  - destruct (MVT_cor2 (fun x => f x - P x) (fun _ => 0) a b Hlt) as [c [Hc' _]];
      [| lra].
    intros x Hx. replace 0 with (g x - g x) by ring.
    apply (derivable_pt_lim_minus f P); [apply Hd, Hx | apply RiemannInt_P28, Hx].
  - replace (P b) with (P a) by (f_equal; exact Heq).
    replace (f b) with (f a) by (f_equal; exact Heq). ring.
Qed.

(** A bound on the integral of a bounded function. *)
Lemma RiemannInt_bounded (f : R -> R) (a b M : R) (pr : Riemann_integrable f a b) :
  a <= b ->
  (forall t, a < t < b -> Rabs (f t) <= M) ->
  Rabs (RiemannInt pr) <= M * (b - a).
Proof.
  intros Hab Hf.
  pose proof (RiemannInt_P19 pr (RiemannInt_P14 a b M) Hab) as Hup.
  pose proof (RiemannInt_P19 (RiemannInt_P14 a b (- M)) pr Hab) as Hlo.
  rewrite RiemannInt_P15 in Hup, Hlo.
  apply Rabs_le. split.
  - replace (- (M * (b - a))) with (- M * (b - a)) by ring.
    apply Hlo. intros t Ht. unfold fct_cte.
    specialize (Hf t Ht). apply Rabs_le_between in Hf. lra.
  - apply Hup. intros t Ht. unfold fct_cte.
    specialize (Hf t Ht). apply Rabs_le_between in Hf. lra.
Qed.

(** Second-order estimate of an increment. *)
Lemma increment_second_order (f f1 f2 : R -> R) (x M : R) :
  (forall y, Rabs (y - x) <= 1 -> derivable_pt_lim f y (f1 y)) ->
  (forall y, Rabs (y - x) <= 1 -> derivable_pt_lim f1 y (f2 y)) ->
  (forall y, Rabs (y - x) <= 1 -> Rabs (f2 y) <= M) ->
  forall d, Rabs d <= 1 -> Rabs (f (x + d) - f x - d * f1 x) <= M * (d * d).
Proof.
  intros Hf Hf1 HM d Hd.
  apply Rabs_le_between in Hd.
  assert (Hnear : forall y, Rmin x (x + d) <= y <= Rmax x (x + d) -> Rabs (y - x) <= 1).
  { intros y Hy. apply Rabs_le.
    unfold Rmin, Rmax in Hy. destruct (Rle_dec x (x + d)); lra. }
  destruct (Rtotal_order d 0) as [Hneg | [-> | Hpos]].
  - (* d < 0 *)
    destruct (MVT_cor2 f f1 (x + d) x) as [c [Hc Hcin]]; [lra | |].
    { intros y Hy. apply Hf, Hnear. unfold Rmin, Rmax.
      destruct (Rle_dec x (x + d)); lra. }
    destruct (MVT_cor2 f1 f2 c x) as [e [He Hein]]; [lra | |].
    { intros y Hy. apply Hf1, Hnear. unfold Rmin, Rmax.
      destruct (Rle_dec x (x + d)); lra. }
    assert (HMe : Rabs (f2 e) <= M).
    { apply HM, Hnear. unfold Rmin, Rmax. destruct (Rle_dec x (x + d)); lra. }
    replace (f (x + d) - f x - d * f1 x) with (- d * (f2 e * (x - c)))
      by (rewrite <- He; replace (f (x + d)) with (f x - f1 c * (x - (x + d))) by lra;
          ring).
    rewrite !Rabs_mult.
    rewrite (Rabs_pos_eq (- d)), (Rabs_pos_eq (x - c)) by lra.
    assert (0 <= Rabs (f2 e)) by apply Rabs_pos.
    assert (Rabs (f2 e) * (x - c) <= M * (- d)).
    { apply Rmult_le_compat; lra. }
    replace (M * (d * d)) with (- d * (M * - d)) by ring.
    apply Rmult_le_compat_l; lra.
  - replace (f (x + 0) - f x - 0 * f1 x) with 0
      by (replace (x + 0) with x by ring; ring).
    rewrite Rabs_R0. lra.
  - (* 0 < d *)
    destruct (MVT_cor2 f f1 x (x + d)) as [c [Hc Hcin]]; [lra | |].
    { intros y Hy. apply Hf, Hnear. unfold Rmin, Rmax.
      destruct (Rle_dec x (x + d)); lra. }
    destruct (MVT_cor2 f1 f2 x c) as [e [He Hein]]; [lra | |].
    { intros y Hy. apply Hf1, Hnear. unfold Rmin, Rmax.
      destruct (Rle_dec x (x + d)); lra. }
    assert (HMe : Rabs (f2 e) <= M).
    { apply HM, Hnear. unfold Rmin, Rmax. destruct (Rle_dec x (x + d)); lra. }
    replace (f (x + d) - f x - d * f1 x) with (d * (f2 e * (c - x)))
      by (rewrite <- He; replace (f (x + d)) with (f x + f1 c * (x + d - x)) by lra;
          ring).
    rewrite !Rabs_mult.
    rewrite (Rabs_pos_eq d), (Rabs_pos_eq (c - x)) by lra.
    assert (0 <= Rabs (f2 e)) by apply Rabs_pos.
    assert (Rabs (f2 e) * (c - x) <= M * d).
    { apply Rmult_le_compat; lra. }
    replace (M * (d * d)) with (d * (M * d)) by ring.
    apply Rmult_le_compat_l; lra.
Qed.

Definition kern (x t : R) : R := exp (- (x * x * (1 + t * t))) / (1 + t * t).
Definition kern1 (x t : R) : R := - (2 * x) * exp (- (x * x * (1 + t * t))).
Definition kern2 (x t : R) : R :=
  (4 * (x * x) * (1 + t * t) - 2) * exp (- (x * x * (1 + t * t))).

Lemma derivable_pt_lim_exp_square (c x : R) :
  derivable_pt_lim (fun y => exp (- (y * y * c))) x
                   (- (2 * x * c) * exp (- (x * x * c))).
Proof.
  replace (- (2 * x * c) * exp (- (x * x * c)))
    with (exp (- (x * x * c)) * - ((1 * x + x * 1) * c)) by ring.
  apply (derivable_pt_lim_comp (fun y => - (y * y * c)) exp).
  - apply (derivable_pt_lim_opp (fun y => y * y * c)).
    apply (derivable_pt_lim_scal_right (fun y => y * y)).
    apply (derivable_pt_lim_mult id id); apply derivable_pt_lim_id.
  - apply derivable_pt_lim_exp.
Qed.

Lemma one_plus_square_pos (t : R) : 0 < 1 + t * t.
Proof. pose proof (Rle_0_sqr t) as H. unfold Rsqr in H. lra. Qed.

Lemma derivable_pt_lim_kern (x t : R) :
  derivable_pt_lim (fun y => kern y t) x (kern1 x t).
Proof.
  pose proof (one_plus_square_pos t) as Hc. unfold kern, kern1.
  replace (- (2 * x) * exp (- (x * x * (1 + t * t))))
    with (- (2 * x * (1 + t * t)) * exp (- (x * x * (1 + t * t))) / (1 + t * t))
    by (field; lra).
  apply (derivable_pt_lim_div_scal (fun y => exp (- (y * y * (1 + t * t))))).
  apply derivable_pt_lim_exp_square.
Qed.

Lemma derivable_pt_lim_kern1 (x t : R) :
  derivable_pt_lim (fun y => kern1 y t) x (kern2 x t).
Proof.
  unfold kern1, kern2.
  replace ((4 * (x * x) * (1 + t * t) - 2) * exp (- (x * x * (1 + t * t))))
    with (- (2 * 1) * exp (- (x * x * (1 + t * t)))
          + - (2 * x) * (- (2 * x * (1 + t * t)) * exp (- (x * x * (1 + t * t)))))
    by ring.
  apply (derivable_pt_lim_mult (fun y => - (2 * y))
                               (fun y => exp (- (y * y * (1 + t * t))))).
  - apply (derivable_pt_lim_opp (fun y => 2 * y)).
    apply (derivable_pt_lim_scal id 2). apply derivable_pt_lim_id.
  - apply derivable_pt_lim_exp_square.
Qed.

Lemma exp_nonpos_le_1 (u : R) : u <= 0 -> exp u <= 1.
Proof.
  intros [Hu | ->]; [| rewrite exp_0; lra].
  left. rewrite <- exp_0. apply exp_increasing, Hu.
Qed.

Definition kern2_bound (x : R) : R := 8 * ((Rabs x + 1) * (Rabs x + 1)) + 2.

Lemma kern2_bounded (x y t : R) :
  Rabs (y - x) <= 1 -> 0 < t < 1 -> Rabs (kern2 y t) <= kern2_bound x.
Proof.
  intros Hy Ht. unfold kern2, kern2_bound.
  assert (Hyy : y * y <= (Rabs x + 1) * (Rabs x + 1)).
  { apply Rabs_le_between in Hy. pose proof (Rabs_pos x) as Hx0.
    assert (Hyabs : Rabs y <= Rabs x + 1).
    { replace y with (y - x + x) at 1 by ring.
      apply Rle_trans with (1 := Rabs_triang _ _).
      pose proof (Rabs_le (y - x) 1 Hy). lra. }
    replace (y * y) with (Rabs y * Rabs y)
      by (rewrite <- Rabs_mult; apply Rabs_pos_eq, Rle_0_sqr).
    apply Rmult_le_compat; try apply Rabs_pos; assumption. }
  assert (Hsq : 0 <= y * y) by apply Rle_0_sqr.
  assert (Htt : 0 <= t * t <= 1) by nra.
  assert (He : 0 < exp (- (y * y * (1 + t * t))) <= 1).
  { split; [apply exp_pos | apply exp_nonpos_le_1; nra]. }
  rewrite Rabs_mult, (Rabs_pos_eq (exp _)) by lra.
  assert (Hfac : Rabs (4 * (y * y) * (1 + t * t) - 2)
                 <= 8 * ((Rabs x + 1) * (Rabs x + 1)) + 2).
  { apply Rabs_le. split; nra. }
  assert (0 <= Rabs (4 * (y * y) * (1 + t * t) - 2)) by apply Rabs_pos.
  nra.
Qed.

Lemma kern_continuous (x t : R) : continuity_pt (kern x) t.
Proof.
  unfold kern. reg. pose proof (one_plus_square_pos t). lra.
Qed.

Lemma kern1_continuous (x t : R) : continuity_pt (kern1 x) t.
Proof. unfold kern1. reg. Qed.

Lemma kern_integrable (x : R) : Riemann_integrable (kern x) 0 1.
Proof.
  apply continuity_implies_RiemannInt; [lra | intros; apply kern_continuous].
Defined.

Lemma kern1_integrable (x : R) : Riemann_integrable (kern1 x) 0 1.
Proof.
  apply continuity_implies_RiemannInt; [lra | intros; apply kern1_continuous].
Defined.

Definition kern_int (x : R) : R := RiemannInt (kern_integrable x).

(** The integral of the slope [kern1 x] over [[0, 1]], by the substitution
    [u = x t]. *)
Lemma kern1_integral (x : R) :
  RiemannInt (kern1_integrable x) = - (2 * gauss x) * gauss_int x.
Proof.
  pose (g := fun t => x * gauss (x * t)).
  assert (Hg : forall t, continuity_pt g t) by (intros t; unfold g, gauss; reg).
  assert (pr_g : Riemann_integrable g 0 1).
  { apply continuity_implies_RiemannInt; [lra | intros; apply Hg]. }
  assert (Ig : RiemannInt pr_g = gauss_int x).
  { rewrite (ftc_segment (fun t => gauss_int (x * t)) g 0 1 pr_g);
      [| lra | | intros; apply Hg].
    - rewrite Rmult_1_r, Rmult_0_r, gauss_int_0. ring.
    - intros t _. unfold g.
      replace (x * gauss (x * t)) with (gauss (x * t) * (x * 1)) by ring.
      apply (derivable_pt_lim_comp (fun u => x * u) gauss_int).
      + apply (derivable_pt_lim_scal id x). apply derivable_pt_lim_id.
      + apply derivable_pt_lim_gauss_int. }
  pose proof (RiemannInt_P13 (RiemannInt_P14 0 1 0) pr_g
                (RiemannInt_P10 (- (2 * gauss x)) (RiemannInt_P14 0 1 0) pr_g)) as Hlin.
  rewrite RiemannInt_P15, Ig in Hlin.
  rewrite (RiemannInt_P18 (kern1_integrable x)
             (RiemannInt_P10 (- (2 * gauss x)) (RiemannInt_P14 0 1 0) pr_g));
    [rewrite Hlin; ring | lra |].
  intros t _. unfold kern1, fct_cte, g, gauss.
  replace (- (x * x * (1 + t * t))) with (- (x * x) + - (x * t * (x * t))) by ring.
  rewrite exp_plus. ring.
Qed.

Lemma kern2_bound_pos (x : R) : 0 < kern2_bound x.
Proof.
  unfold kern2_bound. pose proof (Rle_0_sqr (Rabs x + 1)) as H. unfold Rsqr in H. lra.
Qed.

(** Differentiation under the integral sign. *)
Lemma derivable_pt_lim_kern_int (x : R) :
  derivable_pt_lim kern_int x (- (2 * gauss x) * gauss_int x).
Proof.
  rewrite <- kern1_integral.
  set (I1 := RiemannInt (kern1_integrable x)).
  pose proof (kern2_bound_pos x) as HM. set (M := kern2_bound x) in *.
  intros eps Heps.
  assert (Hdelta : 0 < Rmin 1 (eps / M)).
  { apply Rmin_pos; [lra | apply Rdiv_lt_0_compat; assumption]. }
  exists (mkposreal _ Hdelta). intros h Hh0 Hh. simpl in Hh.
  assert (Hh1 : Rabs h <= 1).
  { left. apply Rlt_le_trans with (1 := Hh). apply Rmin_l. }
  assert (HhM : M * Rabs h < eps).
  { assert (Rabs h < eps / M) by (apply Rlt_le_trans with (1 := Hh); apply Rmin_r).
    replace eps with (M * (eps / M)) by (field; lra).
    apply Rmult_lt_compat_l; assumption. }
  pose (pr_u := RiemannInt_P10 (-1) (kern_integrable (x + h)) (kern_integrable x)).
  pose (pr_r := RiemannInt_P10 (- h) pr_u (kern1_integrable x)).
  assert (Hr : RiemannInt pr_r = kern_int (x + h) - kern_int x - h * I1).
  { rewrite (RiemannInt_P13 pr_u (kern1_integrable x) pr_r).
    rewrite (RiemannInt_P13 (kern_integrable (x + h)) (kern_integrable x) pr_u).
    unfold kern_int, I1. ring. }
  assert (Hbound : Rabs (RiemannInt pr_r) <= M * (h * h) * (1 - 0)).
  { apply RiemannInt_bounded; [lra |].
    intros t Ht.
    replace (kern (x + h) t + -1 * kern x t + - h * kern1 x t)
      with (kern (x + h) t - kern x t - h * kern1 x t) by ring.
    apply (increment_second_order (fun y => kern y t) (fun y => kern1 y t)
             (fun y => kern2 y t)); [| | | exact Hh1].
    - intros; apply derivable_pt_lim_kern.
    - intros; apply derivable_pt_lim_kern1.
    - intros y Hy. apply kern2_bounded; assumption. }
  replace ((kern_int (x + h) - kern_int x) / h - I1)
    with (RiemannInt pr_r * / h) by (rewrite Hr; field; exact Hh0).
  rewrite Rabs_mult, Rabs_inv.
  assert (Habs : 0 < Rabs h) by (apply Rabs_pos_lt, Hh0).
  apply Rle_lt_trans with (M * Rabs h); [| exact HhM].
  apply Rmult_le_reg_r with (Rabs h); [exact Habs |].
  rewrite Rmult_assoc, Rinv_l, Rmult_1_r by lra.
  assert (Hsq : Rabs h * Rabs h = h * h)
    by (rewrite <- Rabs_mult; apply Rabs_pos_eq, Rle_0_sqr).
  replace (M * Rabs h * Rabs h) with (M * (h * h) * (1 - 0)); [exact Hbound |].
  rewrite <- Hsq. ring.
Qed.

Lemma kern_int_0 : kern_int 0 = PI / 4.
Proof.
  unfold kern_int.
  rewrite (ftc_segment atan (kern 0) 0 1); [rewrite atan_1, atan_0; ring | lra | |].
  - intros t _. unfold kern.
    replace (exp (- (0 * 0 * (1 + t * t))) / (1 + t * t)) with (/ (1 + t ^ 2)).
    + apply derivable_pt_lim_atan.
    + replace (- (0 * 0 * (1 + t * t))) with 0 by ring. rewrite exp_0.
      replace (t ^ 2) with (t * t) by ring. unfold Rdiv. ring.
  - intros; apply kern_continuous.
Qed.

Lemma kern_int_bounds (x : R) : 0 <= kern_int x <= gauss x.
Proof.
  assert (Hpt : forall t, 0 < t < 1 -> 0 <= kern x t <= gauss x).
  { intros t Ht. unfold kern, gauss.
    pose proof (one_plus_square_pos t) as Hc.
    assert (Hsq : 0 <= x * x) by apply Rle_0_sqr.
    assert (Htt : 0 <= t * t) by apply Rle_0_sqr.
    pose proof (exp_pos (- (x * x * (1 + t * t)))) as He.
    assert (Hle : exp (- (x * x * (1 + t * t))) <= exp (- (x * x))).
    { assert (Harg : - (x * x * (1 + t * t)) <= - (x * x)) by nra.
      destruct Harg as [Hlt | Heq]; [left; apply exp_increasing, Hlt | rewrite Heq; lra]. }
    split.
    - left. apply Rdiv_lt_0_compat; assumption.
    - apply Rmult_le_reg_r with (1 + t * t); [exact Hc |].
      unfold Rdiv. rewrite Rmult_assoc, Rinv_l, Rmult_1_r by lra.
      pose proof (exp_pos (- (x * x))). nra. }
  unfold kern_int. split.
  - pose proof (RiemannInt_P19 (RiemannInt_P14 0 1 0) (kern_integrable x)) as H.
    rewrite RiemannInt_P15 in H. replace (0 * (1 - 0)) with 0 in H by ring.
    apply H; [lra |]. intros t Ht. unfold fct_cte. apply Hpt, Ht.
  - pose proof (RiemannInt_P19 (kern_integrable x) (RiemannInt_P14 0 1 (gauss x))) as H.
    rewrite RiemannInt_P15 in H. replace (gauss x * (1 - 0)) with (gauss x) in H by ring.
    apply H; [lra |]. intros t Ht. unfold fct_cte. apply Hpt, Ht.
Qed.

(** The sum is constant. *)
Lemma gauss_int_square (x : R) : gauss_int x * gauss_int x + kern_int x = PI / 4.
Proof.
  pose (S := fun y => gauss_int y * gauss_int y + kern_int y).
  assert (Hd : forall c, derivable_pt_lim S c ((fun _ => 0) c)).
  { intros c. unfold S.
    replace 0 with ((gauss c * gauss_int c + gauss_int c * gauss c)
                    + - (2 * gauss c) * gauss_int c) by ring.
    apply (derivable_pt_lim_plus (fun y => gauss_int y * gauss_int y) kern_int).
    - apply (derivable_pt_lim_mult gauss_int gauss_int);
        apply derivable_pt_lim_gauss_int.
    - apply derivable_pt_lim_kern_int. }
  assert (H0 : S 0 = PI / 4).
  { unfold S. rewrite gauss_int_0, kern_int_0. ring. }
  change (S x = PI / 4). rewrite <- H0.
  destruct (Rtotal_order x 0) as [Hlt | [-> | Hgt]]; [| reflexivity |].
  - destruct (MVT_cor2 S (fun _ => 0) x 0 Hlt) as [c [Hc _]]; [intros; apply Hd |].
    lra.
  - destruct (MVT_cor2 S (fun _ => 0) 0 x Hgt) as [c [Hc _]]; [intros; apply Hd |].
    lra.
Qed.

Lemma half_sqrt_PI_square : sqrt PI / 2 * (sqrt PI / 2) = PI / 4.
Proof.
  pose proof PI_RGT_0 as Hpi.
  replace (sqrt PI / 2 * (sqrt PI / 2)) with (sqrt PI * sqrt PI / 4) by field.
  rewrite sqrt_sqrt by lra. reflexivity.
Qed.

Lemma half_sqrt_PI_pos : 0 < sqrt PI / 2.
Proof. pose proof (sqrt_lt_R0 PI PI_RGT_0). lra. Qed.

Lemma gauss_int_le_half_sqrt_PI (x : R) : gauss_int x <= sqrt PI / 2.
Proof.
  pose proof half_sqrt_PI_square as HS. pose proof half_sqrt_PI_pos as HS0.
  pose proof (gauss_int_square x) as Hx. pose proof (kern_int_bounds x) as Hk.
  set (S := sqrt PI / 2) in *.
  destruct (Rle_dec (gauss_int x) S) as [Hle | Hgt]; [exact Hle |].
  apply Rnot_le_lt in Hgt. exfalso. nra.
Qed.

(** The bell is as small as wanted. *)
Lemma gauss_small (eps : R) : 0 < eps -> exists x, 0 <= x /\ gauss x <= eps.
Proof.
  intros Heps. exists (/ eps).
  assert (Hx : 0 < / eps) by apply Rinv_0_lt_compat, Heps.
  split; [lra |].
  apply Rle_trans with (1 := gauss_le_cauchy (/ eps)).
  assert (Hone : eps * / eps = 1) by (apply Rinv_r; lra).
  assert (Hsum : 1 <= eps + / eps).
  { destruct (Rle_dec 1 eps) as [H1 | H1]; [lra |].
    apply Rnot_le_lt in H1.
    assert (/ 1 < / eps) by (apply Rinv_lt_contravar; lra).
    rewrite Rinv_1 in H. lra. }
  set (x := / eps) in *.
  assert (Hxx : x ^ 2 = x * x) by ring.
  assert (Hden : 0 < 1 + x ^ 2) by nra.
  apply Rmult_le_reg_r with (1 + x ^ 2); [exact Hden |].
  rewrite Rinv_l by lra. nra.
Qed.

(** The Gaussian integral. *)
Theorem gauss_total_value : gauss_total = sqrt PI / 2.
Proof.
  pose proof half_sqrt_PI_square as HS. pose proof half_sqrt_PI_pos as HS0.
  pose proof gauss_total_pos as HL.
  apply Rle_antisym.
  - apply (proj2 gauss_total_lub). intros y [x ->]. apply gauss_int_le_half_sqrt_PI.
  - set (S := sqrt PI / 2) in *. set (L := gauss_total) in *.
    destruct (Rle_dec S L) as [Hle | Hlt]; [exact Hle |].
    apply Rnot_le_lt in Hlt. exfalso.
    destruct (gauss_small (S * S - L * L)) as (x & Hx0 & Hx); [nra |].
    pose proof (gauss_int_square x) as Hsq. pose proof (kern_int_bounds x) as Hk.
    pose proof (gauss_int_lt_total x) as HxL. fold L in HxL.
    assert (HG0 : 0 <= gauss_int x).
    { destruct Hx0 as [Hpos | <-]; [| rewrite gauss_int_0; lra].
      left. rewrite <- gauss_int_0. apply gauss_int_increasing, Hpos. }
    nra.
Qed.

(** [erf x] is [2 / sqrt PI] times the integral of the bell over [[0, x]]. *)
Lemma erf_integral (x : R) : erf x = 2 / sqrt PI * gauss_int x.
Proof.
  unfold erf. rewrite gauss_total_value.
  pose proof (sqrt_lt_R0 PI PI_RGT_0). field. lra.
Qed.

Lemma derivable_pt_lim_erf_exact (x : R) :
  derivable_pt_lim erf x (2 / sqrt PI * exp (- (x * x))).
Proof.
  replace (2 / sqrt PI * exp (- (x * x))) with (gauss x / gauss_total).
  - apply derivable_pt_lim_erf.
  - rewrite gauss_total_value. unfold gauss.
    pose proof (sqrt_lt_R0 PI PI_RGT_0). field. lra.
Qed.

End Gauss.

(** ** Python values, exceptions and partial operations *)

Module Py.

(** Python strings are modelled as byte strings; [lower] and [upper] act on
    the ASCII letters, as [str.lower] and [str.upper] do on ASCII text. *)
Definition lower_ascii (c : ascii) : ascii :=
  let n := nat_of_ascii c in
  if andb (Nat.leb 65 n) (Nat.leb n 90) then ascii_of_nat (n + 32) else c.

Definition upper_ascii (c : ascii) : ascii :=
  let n := nat_of_ascii c in
  if andb (Nat.leb 97 n) (Nat.leb n 122) then ascii_of_nat (n - 32) else c.

Fixpoint lower (s : string) : string :=
  match s with
  | EmptyString => EmptyString
  | String c s' => String (lower_ascii c) (lower s')
  end.

Fixpoint upper (s : string) : string :=
  match s with
  | EmptyString => EmptyString
  | String c s' => String (upper_ascii c) (upper s')
  end.

(** The text of an exception: literal text, a formatted float ([{x}] in an
    f-string) or the [repr] of a string ([%r]). *)
Inductive fragment : Type :=
| Text (s : string)
| Float (x : R)
| Repr (s : string).

Definition message : Type := list fragment.

(** Exception classes met in this program.  [ValueError] and
    [ZeroDivisionError] are both subclasses of [Exception]. *)
Inductive exn : Type :=
| ValueError (msg : message)
| ZeroDivisionError (msg : message).

Definition str_exn (e : exn) : message :=
  match e with
  | ValueError m => m
  | ZeroDivisionError m => m
  end.

(** A computation returns a value or raises. *)
Inductive outcome (A : Type) : Type :=
| Return (a : A)
| Raise (e : exn).

Arguments Return {A} a.
Arguments Raise {A} e.

Definition bind {A B : Type} (c : outcome A) (k : A -> outcome B) : outcome B :=
  match c with
  | Return a => k a
  | Raise e => Raise e
  end.

Declare Scope py_scope.
Delimit Scope py_scope with py.
Notation "x <- c ;; k" := (bind c (fun x => k))
  (at level 61, c at next level, right associativity) : py_scope.

(** Float division [x / y]. *)
Definition fdiv (x y : R) : outcome R :=
  if Req_dec_T y 0
  then Raise (ZeroDivisionError [Text "float division by zero"])
  else Return (x / y).

(** [math.log]. *)
Definition math_log (x : R) : outcome R :=
  if Rlt_dec 0 x
  then Return (ln x)
  else Raise (ValueError [Text "math domain error"]).

(** [math.sqrt]. *)
Definition math_sqrt (x : R) : outcome R :=
  if Rle_dec 0 x
  then Return (sqrt x)
  else Raise (ValueError [Text "math domain error"]).

(** [round(x)]: the nearest integer, halves going to the even neighbour. *)
Definition round_half_even (x : R) : Z :=
  let f := Int_part x in
  let r := x - IZR f in
  if Rlt_dec r (1 / 2) then f
  else if Rlt_dec (1 / 2) r then (f + 1)%Z
  else if Z.even f then f else (f + 1)%Z.

(** [round(x, ndigits)] on a float. *)
Definition round (x : R) (ndigits : Z) : R :=
  IZR (round_half_even (x * powerRZ 10 ndigits)) / powerRZ 10 ndigits.

(** Dictionaries built by the program: string keys in insertion order. *)
#[warnings="-register-all"]
Inductive value : Type :=
| VStr (s : string)
| VFloat (x : R)
| VMsg (m : message)
| VDict (items : list (string * value)).

Fixpoint get (key : string) (items : list (string * value)) : option value :=
  match items with
  | [] => None
  | (k, v) :: rest => if String.eqb k key then Some v else get key rest
  end.

End Py.

(** ** The pricing engine: [src/pricing/black76.py] *)

Module Black76.
Import Py.
Local Open Scope py_scope.
Local Open Scope string_scope.

(** [class OptionType(str, Enum)]: two members with string values. *)
Inductive OptionType : Type := CALL | PUT.

Definition OptionType_value (t : OptionType) : string :=
  match t with
  | CALL => "call"
  | PUT => "put"
  end.

Definition OptionType_eqb (a b : OptionType) : bool :=
  match a, b with
  | CALL, CALL | PUT, PUT => true
  | _, _ => false
  end.

(** [OptionType(s)]: look a member up by its value. *)
Definition OptionType_of (s : string) : outcome OptionType :=
  if String.eqb s "call" then Return CALL
  else if String.eqb s "put" then Return PUT
  else Raise (ValueError [Repr s; Text " is not a valid OptionType"]).

(** An argument of type [OptionType | str].  A member is itself a [str]
    (the enum derives from [str]), whose text is its value. *)
Inductive option_arg : Type :=
| Member (t : OptionType)
| Str (s : string).

Definition as_str (a : option_arg) : string :=
  match a with
  | Member t => OptionType_value t
  | Str s => s
  end.

(** [@dataclass(frozen=True) class SPXOptionResult]. *)
Record SPXOptionResult : Type := mkResult {
  price : R;
  delta : R;
  gamma : R;
  vega : R
}.

(** The property [dollar_price]. *)
Definition dollar_price (self : SPXOptionResult) : R := price self * 100.

(** [SPXOptionResult.to_dict(self, decimals)]. *)
Definition to_dict (self : SPXOptionResult) (decimals : Z) : list (string * value) :=
  [ ("price", VFloat (round (price self) decimals));
    ("dollar_price", VFloat (round (dollar_price self) 2));
    ("delta", VFloat (round (delta self) decimals));
    ("gamma", VFloat (round (gamma self) 6));
    ("vega", VFloat (round (vega self) decimals)) ].

(** The default of [decimals]. *)
Definition to_dict_default (self : SPXOptionResult) : list (string * value) :=
  to_dict self 4.

(** [norm_cdf] and [norm_pdf].  Their divisions are by the non-zero
    constants [sqrt 2] and [sqrt (2 PI)], and cannot raise. *)
Definition norm_cdf (x : R) : R := 0.5 * (1 + Gauss.erf (x / sqrt 2)).

Definition norm_pdf (x : R) : R := exp (- 0.5 * x * x) / sqrt (2 * PI).

Definition black76_price
    (forward_price strike dcf df implied_volatility : R)
    (option_type : option_arg) : outcome SPXOptionResult :=
  if Rle_dec forward_price 0 then
    Raise (ValueError [Text "Forward must be positive, got "; Float forward_price])
  else if Rle_dec strike 0 then
    Raise (ValueError [Text "Strike must be positive, got "; Float strike])
  else if Rle_dec dcf 0 then
    Raise (ValueError [Text "DCF must be positive, got "; Float dcf])
  else if Rle_dec implied_volatility 0 then
    Raise (ValueError [Text "Volatility must be positive, got ";
                       Float implied_volatility])
  else
    option_type <- OptionType_of (lower (as_str option_type)) ;;
    sqrt_t <- math_sqrt dcf ;;
    ratio <- fdiv forward_price strike ;;
    log_ratio <- math_log ratio ;;
    d_1 <- fdiv (log_ratio + (implied_volatility ^ 2 / 2) * dcf)
                (implied_volatility * sqrt_t) ;;
    let d_2 := d_1 - implied_volatility * sqrt_t in
    let pdf_d1 := norm_pdf d_1 in
    let '(price, delta) :=
      if OptionType_eqb option_type CALL then
        (df * (forward_price * norm_cdf d_1 - strike * norm_cdf d_2),
         df * norm_cdf d_1)
      else
        (df * (strike * norm_cdf (- d_2) - forward_price * norm_cdf (- d_1)),
         - df * norm_cdf (- d_1)) in
    gamma <- fdiv (df * pdf_d1) (forward_price * implied_volatility * sqrt_t) ;;
    let vega := df * forward_price * pdf_d1 * sqrt_t / 100 in
    Return (mkResult price delta gamma vega).

End Black76.

(** ** The tool [price_option_black76]: [src/server.py] *)

Module Server.
Import Py Black76.
Local Open Scope py_scope.
Local Open Scope string_scope.

(** What one call leaves behind: the lines handed to [logger.exception] and
    the way the call ends. *)
Record run : Type := mkRun {
  logged : list message;
  returned : outcome (list (string * value))
}.

Definition error_response (e : exn) : list (string * value) :=
  [ ("status", VStr "error"); ("message", VMsg (str_exn e)) ].

Definition success_response
    (forward_price strike : R) (option_type : string)
    (result : SPXOptionResult) : list (string * value) :=
  [ ("status", VStr "success");
    ("instrument", VStr "Option");
    ("model", VStr "Black '76");
    ("type", VStr (upper option_type));
    ("inputs", VDict [ ("forward", VFloat forward_price);
                       ("strike", VFloat strike) ]);
    ("pricing", VDict [ ("premium", VFloat (round (price result) 2)) ]);
    ("greeks", VDict [ ("delta", VFloat (round (delta result) 4));
                       ("gamma", VFloat (round (gamma result) 6));
                       ("vega_per_1pct_usd",
                        VFloat (round (vega result * 100) 2)) ]) ].

Section Body.

(** The engine called by the body; [price_option_black76] below is the body
    run with [black76_price]. *)
Variable engine : R -> R -> R -> R -> R -> option_arg -> outcome SPXOptionResult.

(** The [try] block. *)
Definition try_block
    (forward_price strike dcf df implied_volatility : R)
    (option_type : string) : outcome (list (string * value)) :=
  member <- OptionType_of option_type ;;
  result <- engine forward_price strike dcf df implied_volatility (Member member) ;;
  Return (success_response forward_price strike option_type result).

(** The [try] block under its two handlers: [except ValueError] and
    [except Exception], the second one logging. *)
Definition price_option_body
    (forward_price strike dcf df implied_volatility : R)
    (option_type : string) : run :=
  match try_block forward_price strike dcf df implied_volatility option_type with
  | Return response => mkRun [] (Return response)
  | Raise (ValueError m) => mkRun [] (Return (error_response (ValueError m)))
  | Raise e => mkRun [Text "Error: " :: str_exn e] (Return (error_response e))
  end.

End Body.

Definition price_option_black76 : R -> R -> R -> R -> R -> string -> run :=
  price_option_body black76_price.

(** The constraints declared on the parameters ([Field(gt=0)] on all numbers
    but [dcf], [Field(pattern="^(call|put)$")] on the option type), which the
    framework checks before the body runs. *)
Definition field_constraints
    (forward_price strike dcf df implied_volatility : R)
    (option_type : string) : Prop :=
  0 < forward_price /\ 0 < strike /\ 0 < df /\ 0 < implied_volatility /\
  (option_type = "call" \/ option_type = "put").

End Server.

(** ** The closed-form formulas, as the specification words them *)

Module Spec.

(** Standard normal distribution function and density. *)
Definition Phi (x : R) : R := 0.5 * (1 + Gauss.erf (x / sqrt 2)).
Definition phi (x : R) : R := exp (- (x ^ 2) / 2) / sqrt (2 * PI).

Section Formulas.
Variables F K T D sigma : R.

Definition sqrtT : R := sqrt T.
Definition d1 : R := (ln (F / K) + (sigma ^ 2 / 2) * T) / (sigma * sqrtT).
Definition d2 : R := d1 - sigma * sqrtT.

Definition call_price : R := D * (F * Phi d1 - K * Phi d2).
Definition call_delta : R := D * Phi d1.
Definition put_price : R := D * (K * Phi (- d2) - F * Phi (- d1)).
Definition put_delta : R := - D * Phi (- d1).
Definition gamma : R := D * phi d1 / (F * sigma * sqrtT).
Definition vega : R := D * F * phi d1 * sqrtT / 100.

Definition result (t : Black76.OptionType) : Black76.SPXOptionResult :=
  match t with
  | Black76.CALL => Black76.mkResult call_price call_delta gamma vega
  | Black76.PUT => Black76.mkResult put_price put_delta gamma vega
  end.

End Formulas.
End Spec.

(** ** Properties of the engine *)

Import Py Black76 Server.
Local Open Scope string_scope.

Lemma norm_cdf_Phi (x : R) : norm_cdf x = Spec.Phi x.
Proof. reflexivity. Qed.

Lemma norm_pdf_phi (x : R) : norm_pdf x = Spec.phi x.
Proof.
  unfold norm_pdf, Spec.phi. f_equal. f_equal. lra.
Qed.

(** The inputs the engine accepts. *)
Definition valid_inputs (F K T sigma : R) : Prop :=
  0 < F /\ 0 < K /\ 0 < T /\ 0 < sigma.

(** [resolves a t]: the option-type argument [a] names the member [t]. *)
Definition resolves (a : option_arg) (t : OptionType) : Prop :=
  OptionType_of (lower (as_str a)) = Return t.

Lemma sigma_sqrt_pos (T sigma : R) : 0 < T -> 0 < sigma -> 0 < sigma * sqrt T.
Proof.
  intros HT Hs. apply Rmult_lt_0_compat; [exact Hs | apply sqrt_lt_R0, HT].
Qed.

(** Past validation the engine runs to its end without raising, and its
    result is the closed form. *)
Lemma black76_price_closed_form (F K T D sigma : R) (a : option_arg) (t : OptionType) :
  valid_inputs F K T sigma -> resolves a t ->
  black76_price F K T D sigma a = Return (Spec.result F K T D sigma t).
Proof.
  intros (HF & HK & HT & Hs) Hres.
  pose proof (sigma_sqrt_pos T sigma HT Hs) as Hss.
  assert (HFK : 0 < F / K) by (apply Rdiv_lt_0_compat; assumption).
  unfold black76_price.
  destruct (Rle_dec F 0); [lra |].
  destruct (Rle_dec K 0); [lra |].
  destruct (Rle_dec T 0); [lra |].
  destruct (Rle_dec sigma 0); [lra |].
  unfold resolves in Hres. rewrite Hres. cbn [bind].
  unfold math_sqrt. destruct (Rle_dec 0 T); [| lra]. cbn [bind].
  unfold fdiv at 1. destruct (Req_dec_T K 0); [lra |]. cbn [bind].
  unfold math_log. destruct (Rlt_dec 0 (F / K)); [| contradiction]. cbn [bind].
  unfold fdiv at 1. destruct (Req_dec_T (sigma * sqrt T) 0); [lra |]. cbn [bind].
  assert (HFss : 0 < F * sigma * sqrt T).
  { rewrite Rmult_assoc. apply Rmult_lt_0_compat; assumption. }
  unfold fdiv. destruct (Req_dec_T (F * sigma * sqrt T) 0); [lra |].
  rewrite norm_pdf_phi.
  destruct t; cbn [OptionType_eqb bind Spec.result]; f_equal;
    unfold Spec.call_price, Spec.call_delta, Spec.put_price, Spec.put_delta,
      Spec.gamma, Spec.vega, Spec.d2, Spec.d1, Spec.sqrtT;
    change norm_cdf with Spec.Phi; reflexivity.
Qed.

(** *** Option-type parsing *)

Lemma OptionType_of_call (s : string) : OptionType_of s = Return CALL <-> s = "call".
Proof.
  unfold OptionType_of. split.
  - destruct (String.eqb s "call") eqn:E; [intros _; apply String.eqb_eq, E |].
    destruct (String.eqb s "put"); discriminate.
  - intros ->. reflexivity.
Qed.

Lemma OptionType_of_put (s : string) : OptionType_of s = Return PUT <-> s = "put".
Proof.
  unfold OptionType_of. split.
  - destruct (String.eqb s "call") eqn:E; [discriminate |].
    destruct (String.eqb s "put") eqn:E'; [intros _; apply String.eqb_eq, E' | discriminate].
  - intros ->. reflexivity.
Qed.

Definition not_an_option_type (s : string) : message :=
  [Repr s; Text " is not a valid OptionType"].

Lemma OptionType_of_other (s : string) :
  s <> "call" -> s <> "put" ->
  OptionType_of s = Raise (ValueError (not_an_option_type s)).
Proof.
  intros Hc Hp. unfold OptionType_of.
  destruct (String.eqb s "call") eqn:E; [apply String.eqb_eq in E; contradiction |].
  destruct (String.eqb s "put") eqn:E'; [apply String.eqb_eq in E'; contradiction |].
  reflexivity.
Qed.

Lemma OptionType_of_cases (s : string) :
  (s = "call" /\ OptionType_of s = Return CALL) \/
  (s = "put" /\ OptionType_of s = Return PUT) \/
  (s <> "call" /\ s <> "put" /\
   OptionType_of s = Raise (ValueError (not_an_option_type s))).
Proof.
  destruct (string_dec s "call") as [-> | Hc]; [left; split; reflexivity |].
  destruct (string_dec s "put") as [-> | Hp]; [right; left; split; reflexivity |].
  right; right. repeat split; try assumption. apply OptionType_of_other; assumption.
Qed.

(** A member passed instead of a string names itself. *)
Lemma resolves_member (t : OptionType) : resolves (Member t) t.
Proof. destruct t; reflexivity. Qed.

(** *** Validation *)

Definition forward_error (x : R) : exn :=
  ValueError [Text "Forward must be positive, got "; Float x].
Definition strike_error (x : R) : exn :=
  ValueError [Text "Strike must be positive, got "; Float x].
Definition dcf_error (x : R) : exn :=
  ValueError [Text "DCF must be positive, got "; Float x].
Definition volatility_error (x : R) : exn :=
  ValueError [Text "Volatility must be positive, got "; Float x].
Definition option_type_error (a : option_arg) : exn :=
  ValueError (not_an_option_type (lower (as_str a))).

Section Validation.
Variables F K T D sigma : R.
Variable a : option_arg.

Lemma raise_forward : F <= 0 -> black76_price F K T D sigma a = Raise (forward_error F).
Proof.
  intros H. unfold black76_price. destruct (Rle_dec F 0); [reflexivity | contradiction].
Qed.

Lemma raise_strike :
  0 < F -> K <= 0 -> black76_price F K T D sigma a = Raise (strike_error K).
Proof.
  intros HF H. unfold black76_price.
  destruct (Rle_dec F 0); [lra |].
  destruct (Rle_dec K 0); [reflexivity | contradiction].
Qed.

Lemma raise_dcf :
  0 < F -> 0 < K -> T <= 0 -> black76_price F K T D sigma a = Raise (dcf_error T).
Proof.
  intros HF HK H. unfold black76_price.
  destruct (Rle_dec F 0); [lra |].
  destruct (Rle_dec K 0); [lra |].
  destruct (Rle_dec T 0); [reflexivity | contradiction].
Qed.

Lemma raise_volatility :
  0 < F -> 0 < K -> 0 < T -> sigma <= 0 ->
  black76_price F K T D sigma a = Raise (volatility_error sigma).
Proof.
  intros HF HK HT H. unfold black76_price.
  destruct (Rle_dec F 0); [lra |].
  destruct (Rle_dec K 0); [lra |].
  destruct (Rle_dec T 0); [lra |].
  destruct (Rle_dec sigma 0); [reflexivity | contradiction].
Qed.

Lemma raise_option_type :
  valid_inputs F K T sigma ->
  lower (as_str a) <> "call" -> lower (as_str a) <> "put" ->
  black76_price F K T D sigma a = Raise (option_type_error a).
Proof.
  intros (HF & HK & HT & Hs) Hc Hp. unfold black76_price.
  destruct (Rle_dec F 0); [lra |].
  destruct (Rle_dec K 0); [lra |].
  destruct (Rle_dec T 0); [lra |].
  destruct (Rle_dec sigma 0); [lra |].
  rewrite (OptionType_of_other _ Hc Hp). reflexivity.
Qed.

(** Every run of the engine ends in exactly one of six ways. *)
Lemma black76_price_cases :
  (F <= 0 /\ black76_price F K T D sigma a = Raise (forward_error F)) \/
  (0 < F /\ K <= 0 /\ black76_price F K T D sigma a = Raise (strike_error K)) \/
  (0 < F /\ 0 < K /\ T <= 0 /\
   black76_price F K T D sigma a = Raise (dcf_error T)) \/
  (0 < F /\ 0 < K /\ 0 < T /\ sigma <= 0 /\
   black76_price F K T D sigma a = Raise (volatility_error sigma)) \/
  (valid_inputs F K T sigma /\
   lower (as_str a) <> "call" /\ lower (as_str a) <> "put" /\
   black76_price F K T D sigma a = Raise (option_type_error a)) \/
  (valid_inputs F K T sigma /\
   exists t, resolves a t /\
     black76_price F K T D sigma a = Return (Spec.result F K T D sigma t)).
Proof.
  destruct (Rle_dec F 0) as [HF | HF];
    [left; split; [exact HF | apply raise_forward, HF] | right].
  apply Rnot_le_lt in HF.
  destruct (Rle_dec K 0) as [HK | HK];
    [left; repeat split; try assumption; apply raise_strike; assumption | right].
  apply Rnot_le_lt in HK.
  destruct (Rle_dec T 0) as [HT | HT];
    [left; repeat split; try assumption; apply raise_dcf; assumption | right].
  apply Rnot_le_lt in HT.
  destruct (Rle_dec sigma 0) as [Hs | Hs];
    [left; repeat split; try assumption; apply raise_volatility; assumption | right].
  apply Rnot_le_lt in Hs.
  assert (Hv : valid_inputs F K T sigma) by (repeat split; assumption).
  destruct (OptionType_of_cases (lower (as_str a))) as [[_ H] | [[_ H] | (Hc & Hp & _)]].
  - right. split; [exact Hv |]. exists CALL. split; [exact H |].
    apply black76_price_closed_form; assumption.
  - right. split; [exact Hv |]. exists PUT. split; [exact H |].
    apply black76_price_closed_form; assumption.
  - left. repeat split; try assumption. apply raise_option_type; assumption.
Qed.

End Validation.

(** *** The normal distribution function *)



Lemma Phi_opp (x : R) : Spec.Phi (- x) = 1 - Spec.Phi x.
Proof.
  unfold Spec.Phi.
  replace (- x / sqrt 2) with (- (x / sqrt 2)) by (unfold Rdiv; ring).
  rewrite Gauss.erf_odd. lra.
Qed.


(** [Phi] vanishes at minus infinity. *)
Lemma Phi_tail (eps : R) :
  0 < eps -> exists m, forall x, x <= m -> Spec.Phi x < eps.
Proof.
  intros Heps.
  destruct (Gauss.erf_tail (2 * eps)) as [m Hm]; [lra |].
  exists (m * sqrt 2). intros x Hx.
  assert (Hx' : x / sqrt 2 <= m).
  { pose proof Rlt_sqrt2_0 as H2.
    apply Rmult_le_reg_r with (sqrt 2); [exact H2 |].
    unfold Rdiv. rewrite Rmult_assoc, Rinv_l; lra. }
  specialize (Hm _ Hx'). unfold Spec.Phi. lra.
Qed.

(** The slope of [Phi]: a positive multiple of the bell [exp (- x² / 2)]. *)
Definition bell (x : R) : R := exp (- (x ^ 2) / 2).

Definition Phi_scale : R := / (2 * (Gauss.gauss_total * sqrt 2)).



Lemma derivable_pt_lim_Phi (x : R) :
  derivable_pt_lim Spec.Phi x (Phi_scale * bell x).
Proof.
  pose proof Gauss.gauss_total_pos as HL. pose proof Rlt_sqrt2_0 as H2.
  assert (Hsq : sqrt 2 * sqrt 2 = 2) by (apply sqrt_sqrt; lra).
  unfold Spec.Phi.
  replace (Phi_scale * bell x)
    with (0.5 * (0 + Gauss.gauss (x / sqrt 2) / Gauss.gauss_total * (1 * / sqrt 2))).
  2:{ unfold Phi_scale, bell, Gauss.gauss.
      replace (- (x / sqrt 2 * (x / sqrt 2))) with (- x ^ 2 / 2).
      2:{ transitivity (- x ^ 2 / (sqrt 2 * sqrt 2));
          [rewrite Hsq; reflexivity | field; lra]. }
      replace 0.5 with (/ 2) by lra. field. split; lra. }
  apply (derivable_pt_lim_scal (fun y => 1 + Gauss.erf (y / sqrt 2)) 0.5).
  apply (derivable_pt_lim_plus (fun _ => 1) (fun y => Gauss.erf (y / sqrt 2))).
  - apply derivable_pt_lim_const.
  - apply (derivable_pt_lim_comp (fun y => y / sqrt 2) Gauss.erf).
    + apply (derivable_pt_lim_scal_right id). apply derivable_pt_lim_id.
    + apply Gauss.derivable_pt_lim_erf.
Qed.

Lemma phi_bell (x : R) : Spec.phi x = bell x / sqrt (2 * PI).
Proof. reflexivity. Qed.

Lemma Phi_scale_value : Phi_scale = / sqrt (2 * PI).
Proof.
  pose proof PI_RGT_0 as Hpi. pose proof (sqrt_lt_R0 PI Hpi) as HsP.
  pose proof Rlt_sqrt2_0 as Hs2.
  unfold Phi_scale. rewrite Gauss.gauss_total_value.
  rewrite sqrt_mult by lra. f_equal. field.
Qed.

(** The density is the slope of the distribution function. *)
Lemma derivable_pt_lim_Phi_phi (x : R) : derivable_pt_lim Spec.Phi x (Spec.phi x).
Proof.
  replace (Spec.phi x) with (Phi_scale * bell x).
  - apply derivable_pt_lim_Phi.
  - rewrite phi_bell, Phi_scale_value. unfold Rdiv. ring.
Qed.


(** *** The formulas as functions of the forward and of the volatility *)

Section ClosedForm.
Variables F K T sigma : R.
Hypothesis HF : 0 < F.
Hypothesis HK : 0 < K.
Hypothesis HT : 0 < T.
Hypothesis Hsigma : 0 < sigma.

Let d1 := Spec.d1 F K T sigma.
Let d2 := Spec.d2 F K T sigma.

Lemma total_variance : (sigma * sqrt T) ^ 2 / 2 = sigma ^ 2 / 2 * T.
Proof.
  assert (Hsq : sqrt T * sqrt T = T) by (apply sqrt_sqrt; lra).
  replace ((sigma * sqrt T) ^ 2) with (sigma ^ 2 * (sqrt T * sqrt T)) by ring.
  rewrite Hsq. field.
Qed.

Lemma log_moneyness : ln (F / K) = (d1 ^ 2 - d2 ^ 2) / 2.
Proof.
  pose proof (sigma_sqrt_pos T sigma HT Hsigma) as Hss.
  pose proof total_variance as Hv.
  unfold d2, d1, Spec.d2, Spec.d1, Spec.sqrtT in *.
  set (s := sigma * sqrt T) in *. set (l := ln (F / K)).
  rewrite <- Hv. field. lra.
Qed.

(** The identity behind every Greek: [F * bell d1 = K * bell d2]. *)
Lemma bell_balance : F * bell d1 = K * bell d2.
Proof.
  unfold bell.
  replace (- d2 ^ 2 / 2) with (- d1 ^ 2 / 2 + ln (F / K))
    by (rewrite log_moneyness; field).
  rewrite exp_plus, exp_ln by (apply Rdiv_lt_0_compat; assumption).
  field. lra.
Qed.



End ClosedForm.

(** The bracket of the call price, [F * Phi d1 - K * Phi d2], and of the put
    price. *)
Definition call_core (F K T sigma : R) : R :=
  F * Spec.Phi (Spec.d1 F K T sigma) - K * Spec.Phi (Spec.d2 F K T sigma).

Definition put_core (F K T sigma : R) : R :=
  K * Spec.Phi (- Spec.d2 F K T sigma) - F * Spec.Phi (- Spec.d1 F K T sigma).

Lemma call_price_core (F K T D sigma : R) :
  Spec.call_price F K T D sigma = D * call_core F K T sigma.
Proof. reflexivity. Qed.

Lemma put_price_core (F K T D sigma : R) :
  Spec.put_price F K T D sigma = D * put_core F K T sigma.
Proof. reflexivity. Qed.


(** Put-call parity on the brackets. *)
Lemma core_parity (F K T sigma : R) :
  call_core F K T sigma - put_core F K T sigma = F - K.
Proof.
  unfold call_core, put_core. rewrite !Phi_opp. ring.
Qed.

Section InForward.
Variables K T sigma : R.
Hypothesis HK : 0 < K.
Hypothesis HT : 0 < T.
Hypothesis Hsigma : 0 < sigma.

Lemma derivable_pt_lim_d1_forward (F : R) :
  0 < F ->
  derivable_pt_lim (fun x => Spec.d1 x K T sigma) F (/ (F * (sigma * sqrt T))).
Proof.
  intros HF. pose proof (sqrt_lt_R0 T HT) as HsT.
  unfold Spec.d1, Spec.sqrtT.
  replace (/ (F * (sigma * sqrt T)))
    with ((/ (F / K) * (1 / K) + 0) / (sigma * sqrt T))
    by (field; repeat split; lra).
  apply (derivable_pt_lim_div_scal (fun x => ln (x / K) + sigma ^ 2 / 2 * T)).
  apply (derivable_pt_lim_plus (fun x => ln (x / K)) (fun _ => sigma ^ 2 / 2 * T)).
  - apply (derivable_pt_lim_comp (fun x => x / K) ln).
    + apply (derivable_pt_lim_div_scal id). apply derivable_pt_lim_id.
    + apply derivable_pt_lim_ln. apply Rdiv_lt_0_compat; assumption.
  - apply derivable_pt_lim_const.
Qed.

Lemma derivable_pt_lim_d2_forward (F : R) :
  0 < F ->
  derivable_pt_lim (fun x => Spec.d2 x K T sigma) F (/ (F * (sigma * sqrt T))).
Proof.
  intros HF. unfold Spec.d2.
  replace (/ (F * (sigma * sqrt T))) with (/ (F * (sigma * sqrt T)) - 0) by ring.
  apply (derivable_pt_lim_minus (fun x => Spec.d1 x K T sigma)
                                (fun _ => sigma * Spec.sqrtT T)).
  - apply derivable_pt_lim_d1_forward, HF.
  - apply derivable_pt_lim_const.
Qed.

(** The slope of the bracket in the forward is [Phi d1]: the bell terms
    cancel by [bell_balance]. *)
Lemma derivable_pt_lim_call_core_forward (F : R) :
  0 < F ->
  derivable_pt_lim (fun x => call_core x K T sigma) F
                   (Spec.Phi (Spec.d1 F K T sigma)).
Proof.
  intros HF. pose proof (sigma_sqrt_pos T sigma HT Hsigma) as Hss.
  pose proof (bell_balance F K T sigma HF HK HT Hsigma) as Hbal. cbv zeta in Hbal.
  set (l := / (F * (sigma * sqrt T))).
  set (e1 := bell (Spec.d1 F K T sigma)) in *.
  set (e2 := bell (Spec.d2 F K T sigma)) in *.
  replace (Spec.Phi (Spec.d1 F K T sigma))
    with ((1 * Spec.Phi (Spec.d1 F K T sigma) + F * (Phi_scale * e1 * l))
          - K * (Phi_scale * e2 * l)).
  2:{ replace (K * (Phi_scale * e2 * l)) with (Phi_scale * l * (K * e2)) by ring.
      rewrite <- Hbal. ring. }
  unfold call_core.
  apply (derivable_pt_lim_minus
           (fun x => x * Spec.Phi (Spec.d1 x K T sigma))
           (fun x => K * Spec.Phi (Spec.d2 x K T sigma))).
  - apply (derivable_pt_lim_mult id (fun x => Spec.Phi (Spec.d1 x K T sigma))).
    + apply derivable_pt_lim_id.
    + apply (derivable_pt_lim_comp (fun x => Spec.d1 x K T sigma) Spec.Phi).
      * apply derivable_pt_lim_d1_forward, HF.
      * apply derivable_pt_lim_Phi.
  - apply (derivable_pt_lim_scal (fun x => Spec.Phi (Spec.d2 x K T sigma)) K).
    apply (derivable_pt_lim_comp (fun x => Spec.d2 x K T sigma) Spec.Phi).
    + apply derivable_pt_lim_d2_forward, HF.
    + apply derivable_pt_lim_Phi.
Qed.




End InForward.

Section InVolatility.
Variables F K T : R.
Hypothesis HF : 0 < F.
Hypothesis HK : 0 < K.
Hypothesis HT : 0 < T.

Lemma derivable_d1_volatility (sigma : R) :
  0 < sigma -> exists l, derivable_pt_lim (fun x => Spec.d1 F K T x) sigma l.
Proof.
  intros Hs. pose proof (sigma_sqrt_pos T sigma HT Hs) as Hss.
  unfold Spec.d1, Spec.sqrtT. eexists.
  apply (derivable_pt_lim_div (fun x => ln (F / K) + x ^ 2 / 2 * T)
                              (fun x => x * sqrt T)).
  - apply (derivable_pt_lim_plus (fun _ => ln (F / K)) (fun x => x ^ 2 / 2 * T)).
    + apply derivable_pt_lim_const.
    + apply (derivable_pt_lim_scal_right (fun x => x ^ 2 / 2)).
      apply (derivable_pt_lim_div_scal (fun x => x ^ 2)).
      apply derivable_pt_lim_pow.
  - apply (derivable_pt_lim_scal_right id). apply derivable_pt_lim_id.
  - lra.
Qed.

(** The slope of the bracket in the volatility: a positive multiple of
    [F * bell d1 * sqrt T]. *)
Lemma derivable_pt_lim_call_core_volatility (sigma : R) :
  0 < sigma ->
  derivable_pt_lim (fun x => call_core F K T x) sigma
    (Phi_scale * (F * bell (Spec.d1 F K T sigma) * sqrt T)).
Proof.
  intros Hs.
  destruct (derivable_d1_volatility sigma Hs) as [l Hl].
  pose proof (bell_balance F K T sigma HF HK HT Hs) as Hbal. cbv zeta in Hbal.
  set (e1 := bell (Spec.d1 F K T sigma)) in *.
  set (e2 := bell (Spec.d2 F K T sigma)) in *.
  replace (Phi_scale * (F * e1 * sqrt T))
    with (F * (Phi_scale * e1 * l) - K * (Phi_scale * e2 * (l - 1 * sqrt T))).
  2:{ replace (K * (Phi_scale * e2 * (l - 1 * sqrt T)))
        with (Phi_scale * (l - sqrt T) * (K * e2)) by ring.
      rewrite <- Hbal. ring. }
  unfold call_core.
  apply (derivable_pt_lim_minus
           (fun x => F * Spec.Phi (Spec.d1 F K T x))
           (fun x => K * Spec.Phi (Spec.d2 F K T x))).
  - apply (derivable_pt_lim_scal (fun x => Spec.Phi (Spec.d1 F K T x)) F).
    apply (derivable_pt_lim_comp (fun x => Spec.d1 F K T x) Spec.Phi);
      [exact Hl | apply derivable_pt_lim_Phi].
  - apply (derivable_pt_lim_scal (fun x => Spec.Phi (Spec.d2 F K T x)) K).
    apply (derivable_pt_lim_comp (fun x => Spec.d2 F K T x) Spec.Phi);
      [| apply derivable_pt_lim_Phi].
    unfold Spec.d2.
    apply (derivable_pt_lim_minus (fun x => Spec.d1 F K T x)
                                  (fun x => x * Spec.sqrtT T)); [exact Hl |].
    apply (derivable_pt_lim_scal_right id). apply derivable_pt_lim_id.
Qed.


End InVolatility.

(** *** Rounding *)

Lemma round_half_even_near (x : R) : Rabs (IZR (round_half_even x) - x) <= 1 / 2.
Proof.
  unfold round_half_even.
  destruct (base_Int_part x) as [Hlo Hhi].
  set (f := Int_part x) in *.
  apply Rabs_le.
  destruct (Rlt_dec (x - IZR f) (1 / 2)) as [H1 | H1]; [lra |].
  destruct (Rlt_dec (1 / 2) (x - IZR f)) as [H2 | H2].
  - rewrite plus_IZR. lra.
  - destruct (Z.even f); [lra | rewrite plus_IZR; lra].
Qed.

(** [round x n] is a multiple of [10 ^ (- n)] at distance at most half a
    unit of that size from [x]. *)
Lemma round_grid (x : R) (n : Z) :
  exists k : Z, round x n = IZR k / powerRZ 10 n.
Proof. eexists. reflexivity. Qed.

Lemma round_near (x : R) (n : Z) :
  Rabs (round x n - x) <= / 2 * / powerRZ 10 n.
Proof.
  assert (HP : 0 < powerRZ 10 n) by (apply powerRZ_lt; lra).
  pose proof (round_half_even_near (x * powerRZ 10 n)) as Hk.
  unfold round. set (k := IZR (round_half_even (x * powerRZ 10 n))) in *.
  set (P := powerRZ 10 n) in *.
  replace (k / P - x) with ((k - x * P) * / P) by (field; lra).
  rewrite Rabs_mult, (Rabs_pos_eq (/ P)) by (left; apply Rinv_0_lt_compat, HP).
  apply Rle_trans with (1 / 2 * / P); [| lra].
  apply Rmult_le_compat_r; [left; apply Rinv_0_lt_compat, HP | exact Hk].
Qed.


Lemma round_half_even_tie (k : Z) :
  round_half_even (IZR k + 1 / 2) = if Z.even k then k else (k + 1)%Z.
Proof.
  unfold round_half_even.
  assert (Hk : Int_part (IZR k + 1 / 2) = k).
  { symmetry. apply Int_part_spec. lra. }
  rewrite Hk. replace (IZR k + 1 / 2 - IZR k) with (1 / 2) by ring.
  destruct (Rlt_dec (1 / 2) (1 / 2)); [lra | reflexivity].
Qed.

(** Ties go to the even neighbour: [round(2.5) = 2], [round(3.5) = 4],
    [round(0.125, 2) = 0.12]. *)
Example round_half_even_2_5 : round_half_even 2.5 = 2%Z.
Proof. replace 2.5 with (IZR 2 + 1 / 2) by lra. apply round_half_even_tie. Qed.

Example round_half_even_3_5 : round_half_even 3.5 = 4%Z.
Proof. replace 3.5 with (IZR 3 + 1 / 2) by lra. apply round_half_even_tie. Qed.

Example round_0_125 : round 0.125 2 = 0.12.
Proof.
  unfold round. replace (0.125 * powerRZ 10 2) with (IZR 12 + 1 / 2) by (simpl; lra).
  rewrite round_half_even_tie. simpl. lra.
Qed.

Example lower_mixed : lower "CaLl" = "call".
Proof. reflexivity. Qed.

Example upper_put : upper "put" = "PUT".
Proof. reflexivity. Qed.

(** *** The boundary *)



(** The body run with the engine of this repository. *)
Lemma price_option_black76_priced (F K T D sigma : R) (s : string) (t : OptionType) :
  valid_inputs F K T sigma -> OptionType_of s = Return t ->
  price_option_black76 F K T D sigma s
  = mkRun [] (Return (success_response F K s (Spec.result F K T D sigma t))).
Proof.
  intros Hv Hs. unfold price_option_black76, price_option_body, try_block.
  rewrite Hs. cbn [bind].
  rewrite (black76_price_closed_form F K T D sigma (Member t) t Hv (resolves_member t)).
  reflexivity.
Qed.

Lemma price_option_black76_unparsed (F K T D sigma : R) (s : string) :
  s <> "call" -> s <> "put" ->
  price_option_black76 F K T D sigma s
  = mkRun [] (Return (error_response (ValueError (not_an_option_type s)))).
Proof.
  intros Hc Hp. unfold price_option_black76, price_option_body, try_block.
  rewrite (OptionType_of_other s Hc Hp). reflexivity.
Qed.

(** *** Signs and bounds of the closed form *)

Section Bounds.
Variables F K T D sigma : R.
Hypothesis HF : 0 < F.
Hypothesis HK : 0 < K.
Hypothesis HT : 0 < T.
Hypothesis Hsigma : 0 < sigma.
Hypothesis HD : 0 < D.







End Bounds.

(** The slope of the call price in the forward is the call delta. *)
Lemma call_price_slope_forward (F K T D sigma : R) :
  0 < F -> 0 < K -> 0 < T -> 0 < sigma ->
  derivable_pt_lim (fun x => Spec.call_price x K T D sigma) F
                   (Spec.call_delta F K T D sigma).
Proof.
  intros HF HK HT Hs. unfold Spec.call_delta.
  apply (derivable_pt_lim_scal (fun x => call_core x K T sigma) D).
  apply derivable_pt_lim_call_core_forward; assumption.
Qed.

(** The slope of the call delta in the forward is the gamma. *)
Lemma call_delta_slope_forward (F K T D sigma : R) :
  0 < F -> 0 < K -> 0 < T -> 0 < sigma ->
  derivable_pt_lim (fun x => Spec.call_delta x K T D sigma) F
                   (Spec.gamma F K T D sigma).
Proof.
  intros HF HK HT Hs.
  pose proof (sqrt_lt_R0 T HT) as HsT.
  unfold Spec.call_delta.
  replace (Spec.gamma F K T D sigma)
    with (D * (Spec.phi (Spec.d1 F K T sigma) * / (F * (sigma * sqrt T)))).
  2:{ unfold Spec.gamma, Spec.sqrtT. field. repeat split; lra. }
  apply (derivable_pt_lim_scal (fun x => Spec.Phi (Spec.d1 x K T sigma)) D).
  apply (derivable_pt_lim_comp (fun x => Spec.d1 x K T sigma) Spec.Phi).
  - apply derivable_pt_lim_d1_forward; assumption.
  - apply derivable_pt_lim_Phi_phi.
Qed.

(** The slope of the call price in the volatility is the vega, which is
    quoted per percentage point: a hundred times the [vega] field. *)
Lemma call_price_slope_volatility (F K T D sigma : R) :
  0 < F -> 0 < K -> 0 < T -> 0 < sigma ->
  derivable_pt_lim (fun x => Spec.call_price F K T D x) sigma
                   (100 * Spec.vega F K T D sigma).
Proof.
  intros HF HK HT Hs.
  assert (Hpi : 0 < sqrt (2 * PI)) by (apply sqrt_lt_R0; pose proof PI_RGT_0; lra).
  replace (100 * Spec.vega F K T D sigma)
    with (D * (Phi_scale * (F * bell (Spec.d1 F K T sigma) * sqrt T))).
  2:{ unfold Spec.vega, Spec.sqrtT. rewrite phi_bell, Phi_scale_value. field. lra. }
  apply (derivable_pt_lim_scal (fun x => call_core F K T x) D).
  apply derivable_pt_lim_call_core_volatility; assumption.
Qed.

(** The two handlers at work on an engine that fails in the two ways: a
    [ValueError] is answered silently, any other exception is answered and
    logged. *)
Example body_converts_value_error :
  price_option_body (fun _ _ _ _ _ _ => Raise (ValueError [Text "math domain error"]))
                    1 1 1 1 1 "call"
  = mkRun [] (Return [ ("status", VStr "error");
                       ("message", VMsg [Text "math domain error"]) ]).
Proof. reflexivity. Qed.

Example body_converts_other_exception :
  price_option_body
    (fun _ _ _ _ _ _ => Raise (ZeroDivisionError [Text "float division by zero"]))
    1 1 1 1 1 "put"
  = mkRun [[Text "Error: "; Text "float division by zero"]]
          (Return [ ("status", VStr "error");
                    ("message", VMsg [Text "float division by zero"]) ]).
Proof. reflexivity. Qed.

(** ** The claims *)



(** What a message of the engine says about the inputs: it names one
    parameter, carries the value that parameter had, and that value breaks
    the parameter's constraint. *)
Definition reports_violation
    (F K T sigma : R) (a : option_arg) (e : exn) : Prop :=
  (e = forward_error F /\ F <= 0) \/
  (e = strike_error K /\ K <= 0) \/
  (e = dcf_error T /\ T <= 0) \/
  (e = volatility_error sigma /\ sigma <= 0) \/
  (e = option_type_error a /\
   lower (as_str a) <> "call" /\ lower (as_str a) <> "put").

(** C2. When the forward, the strike, the day-count fraction or the
    volatility is not positive, or the option type resolves to neither "call"
    nor "put", [black76_price] raises one [ValueError] whose message names a
    violated parameter and carries its value; it raises no numeric exception
    ([ZeroDivisionError], "math domain error") and returns no result.  The
    message about the option type carries the lower-cased string. *)
Theorem C2_invalid_input_rejected (F K T D sigma : R) (a : option_arg) :
  F <= 0 \/ K <= 0 \/ T <= 0 \/ sigma <= 0 \/
  (lower (as_str a) <> "call" /\ lower (as_str a) <> "put") ->
  exists m,
    black76_price F K T D sigma a = Raise (ValueError m) /\
    reports_violation F K T sigma a (ValueError m) /\
    m <> [Text "math domain error"].
Proof.
  intros Hbad. unfold reports_violation.
  destruct (black76_price_cases F K T D sigma a)
    as [(H & E) | [(_ & H & E) | [(_ & _ & H & E) | [(_ & _ & _ & H & E)
       | [(_ & Hc & Hp & E) | ((HF & HK & HT & Hs) & t & Ht & _)]]]]].
  - eexists. split; [exact E |]. split; [left; split; [reflexivity | exact H] |].
    discriminate.
  - eexists. split; [exact E |].
    split; [right; left; split; [reflexivity | exact H] |]. discriminate.
  - eexists. split; [exact E |].
    split; [right; right; left; split; [reflexivity | exact H] |]. discriminate.
  - eexists. split; [exact E |].
    split; [right; right; right; left; split; [reflexivity | exact H] |]. discriminate.
  - eexists. split; [exact E |].
    split; [right; right; right; right; repeat split; assumption |]. discriminate.
  - exfalso. destruct Hbad as [H | [H | [H | [H | [Hc Hp]]]]]; try lra.
    unfold resolves in Ht. destruct t.
    + apply OptionType_of_call in Ht. contradiction.
    + apply OptionType_of_put in Ht. contradiction.
Qed.

(** The boundary cases of the specification: a zero forward, a negative
    strike, a zero day-count fraction, a negative volatility, "straddle". *)
Lemma C2_witness :
  (exists m, black76_price 0 5000 1 1 0.15 (Str "call") = Raise (ValueError m)) /\
  (exists m, black76_price 5500 (-5) 1 1 0.15 (Str "call") = Raise (ValueError m)) /\
  (exists m, black76_price 5500 5000 0 1 0.15 (Str "call") = Raise (ValueError m)) /\
  (exists m, black76_price 5500 5000 1 1 (-0.1) (Str "call") = Raise (ValueError m)) /\
  (exists m, black76_price 5500 5000 1 1 0.15 (Str "straddle")
             = Raise (ValueError m)).
Proof.
  assert (H1 : 0 <= 0) by lra. assert (H2 : -5 <= 0) by lra.
  assert (H4 : -0.1 <= 0) by lra.
  assert (H5 : lower "straddle" <> "call" /\ lower "straddle" <> "put")
    by (split; discriminate).
  repeat split.
  - destruct (C2_invalid_input_rejected 0 5000 1 1 0.15 (Str "call")
                (or_introl H1)) as (m & Hm & _).
    exists m. exact Hm.
  - destruct (C2_invalid_input_rejected 5500 (-5) 1 1 0.15 (Str "call")
                (or_intror (or_introl H2))) as (m & Hm & _).
    exists m. exact Hm.
  - destruct (C2_invalid_input_rejected 5500 5000 0 1 0.15 (Str "call")
                (or_intror (or_intror (or_introl H1)))) as (m & Hm & _).
    exists m. exact Hm.
  - destruct (C2_invalid_input_rejected 5500 5000 1 1 (-0.1) (Str "call")
                (or_intror (or_intror (or_intror (or_introl H4))))) as (m & Hm & _).
    exists m. exact Hm.
  - destruct (C2_invalid_input_rejected 5500 5000 1 1 0.15 (Str "straddle")
                (or_intror (or_intror (or_intror (or_intror H5))))) as (m & Hm & _).
    exists m. exact Hm.
Defined.










(** C7, as the code has it.  The engine parses the option type without
    regard to case and accepts nothing else: a string whose lower-casing is
    "call" or "put" is priced as that side, any other string raises
    [ValueError].  The tool is stricter: its body looks the string up as it
    is, so it prices exactly "call" and "put" and answers any other string,
    "CALL" or "Put" included, with an error response; the pattern declared
    on its parameter admits the same two strings only. *)
Theorem C7_option_type_parsing (F K T D sigma : R) (s : string) :
  0 < F -> 0 < K -> 0 < T -> 0 < sigma ->
  (lower s = "call" ->
   black76_price F K T D sigma (Str s) = Return (Spec.result F K T D sigma CALL)) /\
  (lower s = "put" ->
   black76_price F K T D sigma (Str s) = Return (Spec.result F K T D sigma PUT)) /\
  (lower s <> "call" -> lower s <> "put" ->
   black76_price F K T D sigma (Str s) = Raise (option_type_error (Str s))) /\
  (s = "call" ->
   returned (price_option_black76 F K T D sigma s)
   = Return (success_response F K s (Spec.result F K T D sigma CALL))) /\
  (s = "put" ->
   returned (price_option_black76 F K T D sigma s)
   = Return (success_response F K s (Spec.result F K T D sigma PUT))) /\
  (s <> "call" -> s <> "put" ->
   returned (price_option_black76 F K T D sigma s)
   = Return (error_response (ValueError (not_an_option_type s)))) /\
  (field_constraints F K T D sigma s -> s = "call" \/ s = "put").
Proof.
  intros HF HK HT Hs.
  assert (Hv : valid_inputs F K T sigma) by (repeat split; assumption).
  split.
  { intros E. apply black76_price_closed_form; [exact Hv |].
    unfold resolves. cbn [as_str]. rewrite E. reflexivity. }
  split.
  { intros E. apply black76_price_closed_form; [exact Hv |].
    unfold resolves. cbn [as_str]. rewrite E. reflexivity. }
  split.
  { intros Hc Hp. apply raise_option_type; assumption. }
  split.
  { intros ->. rewrite (price_option_black76_priced F K T D sigma "call" CALL Hv eq_refl).
    reflexivity. }
  split.
  { intros ->. rewrite (price_option_black76_priced F K T D sigma "put" PUT Hv eq_refl).
    reflexivity. }
  split.
  { intros Hc Hp. rewrite (price_option_black76_unparsed F K T D sigma s Hc Hp).
    reflexivity. }
  intros (_ & _ & _ & _ & H). exact H.
Qed.

Lemma C7_witness :
  (0 < 5500 /\ 0 < 5000 /\ 0 < 30 / 365 /\ 0 < 0.15 /\ lower "PuT" = "put") /\
  black76_price 5500 5000 (30 / 365) 0.99 0.15 (Str "PuT")
  = Return (Spec.result 5500 5000 (30 / 365) 0.99 0.15 PUT).
Proof.
  assert (H1 : 0 < 5500) by lra. assert (H2 : 0 < 5000) by lra.
  assert (H3 : 0 < 30 / 365) by lra. assert (H4 : 0 < 0.15) by lra.
  assert (H5 : lower "PuT" = "put") by reflexivity.
  split; [repeat split; assumption |].
  exact (proj1 (proj2 (C7_option_type_parsing 5500 5000 (30 / 365) 0.99 0.15 "PuT"
                         H1 H2 H3 H4)) H5).
Defined.

(** C7 fails as stated for the tool: the lower-casing of "CALL" is "call"
    and the engine prices it, yet the tool answers it with an error
    response, and the declared pattern does not admit it. *)
Lemma C7_counterexample :
  lower "CALL" = "call" /\
  returned (price_option_black76 5500 5000 (30 / 365) 0.99 0.15 "CALL")
  = Return [ ("status", VStr "error");
             ("message", VMsg [Repr "CALL"; Text " is not a valid OptionType"]) ] /\
  ~ field_constraints 5500 5000 (30 / 365) 0.99 0.15 "CALL".
Proof.
  split; [reflexivity |]. split; [reflexivity |].
  intros (_ & _ & _ & _ & [H | H]); discriminate H.
Qed.

(** C8. Rounding is done where results are serialised, on the unrounded
    fields of the result: [to_dict] with its default argument rounds price,
    delta and vega to 4 places, gamma to 6 and the dollar price (price times
    100) to 2; the success response of the tool rounds the premium to 2
    places, delta to 4, gamma to 6 and vega times 100 to 2, all taken from
    the closed-form result of the engine.  Rounding to [n] places gives a
    multiple of [10 ^ (- n)] within half a unit of the value. *)
Theorem C8_rounding_contract :
  (forall r : SPXOptionResult,
     to_dict_default r
     = [ ("price", VFloat (round (price r) 4));
         ("dollar_price", VFloat (round (price r * 100) 2));
         ("delta", VFloat (round (delta r) 4));
         ("gamma", VFloat (round (gamma r) 6));
         ("vega", VFloat (round (vega r) 4)) ]) /\
  (forall F K T D sigma s t,
     valid_inputs F K T sigma -> OptionType_of s = Return t ->
     let r := Spec.result F K T D sigma t in
     black76_price F K T D sigma (Member t) = Return r /\
     exists d,
       returned (price_option_black76 F K T D sigma s) = Return d /\
       get "pricing" d = Some (VDict [ ("premium", VFloat (round (price r) 2)) ]) /\
       get "greeks" d
       = Some (VDict [ ("delta", VFloat (round (delta r) 4));
                       ("gamma", VFloat (round (gamma r) 6));
                       ("vega_per_1pct_usd", VFloat (round (vega r * 100) 2)) ])) /\
  (forall (x : R) (n : Z),
     (exists k : Z, round x n = IZR k / powerRZ 10 n) /\
     Rabs (round x n - x) <= / 2 * / powerRZ 10 n).
Proof.
  split; [intros r; reflexivity |]. split.
  - intros F K T D sigma s t Hv Hs r. split.
    + apply black76_price_closed_form; [exact Hv | apply resolves_member].
    + exists (success_response F K s r). split.
      * rewrite (price_option_black76_priced F K T D sigma s t Hv Hs). reflexivity.
      * split; reflexivity.
  - intros x n. split; [apply round_grid | apply round_near].
Qed.

Lemma C8_witness :
  (valid_inputs 5500 5000 (30 / 365) 0.15 /\ OptionType_of "call" = Return CALL) /\
  exists d,
    returned (price_option_black76 5500 5000 (30 / 365) 0.99 0.15 "call") = Return d /\
    get "pricing" d
    = Some (VDict [ ("premium",
                     VFloat (round (Spec.call_price 5500 5000 (30 / 365) 0.99 0.15) 2)) ]).
Proof.
  assert (Hv : valid_inputs 5500 5000 (30 / 365) 0.15) by (unfold valid_inputs; lra).
  assert (Hs : OptionType_of "call" = Return CALL) by reflexivity.
  split; [split; assumption |].
  destruct (proj1 (proj2 C8_rounding_contract)
              5500 5000 (30 / 365) 0.99 0.15 "call" CALL Hv Hs)
    as (_ & d & Hd & Hp & _).
  exists d. split; [exact Hd | exact Hp].
Defined.


(** C10. The checks run in a fixed order: forward, strike, day-count
    fraction, volatility, and only then the option type.  When several inputs
    are invalid the error raised is that of the first one in this order, and
    an unrecognised option type is reported only when the four numbers are
    valid. *)
Theorem C10_validation_order (F K T D sigma : R) (a : option_arg) :
  (F <= 0 -> black76_price F K T D sigma a = Raise (forward_error F)) /\
  (0 < F -> K <= 0 -> black76_price F K T D sigma a = Raise (strike_error K)) /\
  (0 < F -> 0 < K -> T <= 0 ->
   black76_price F K T D sigma a = Raise (dcf_error T)) /\
  (0 < F -> 0 < K -> 0 < T -> sigma <= 0 ->
   black76_price F K T D sigma a = Raise (volatility_error sigma)) /\
  (0 < F -> 0 < K -> 0 < T -> 0 < sigma ->
   lower (as_str a) <> "call" -> lower (as_str a) <> "put" ->
   black76_price F K T D sigma a = Raise (option_type_error a)) /\
  (black76_price F K T D sigma a = Raise (option_type_error a) ->
   0 < F /\ 0 < K /\ 0 < T /\ 0 < sigma).
Proof.
  split; [apply raise_forward |].
  split; [apply raise_strike |].
  split; [apply raise_dcf |].
  split; [apply raise_volatility |].
  split.
  - intros HF HK HT Hs. apply raise_option_type. repeat split; assumption.
  - intros He.
    destruct (black76_price_cases F K T D sigma a)
      as [(H & E) | [(_ & H & E) | [(_ & _ & H & E) | [(_ & _ & _ & H & E)
         | [(Hv & _) | (Hv & _)]]]]];
      try exact Hv; rewrite E in He; discriminate He.
Qed.

(** Forward and strike both invalid, and an unknown option type on top: the
    error is the forward's. *)
Lemma C10_witness :
  (-1 <= 0) /\
  black76_price (-1) (-5) 1 1 0.15 (Str "straddle") = Raise (forward_error (-1)).
Proof.
  assert (H : -1 <= 0) by lra.
  split; [exact H |].
  exact (proj1 (C10_validation_order (-1) (-5) 1 1 0.15 (Str "straddle")) H).
Defined.

(** ** Further properties of the code *)

(** *** [norm_cdf] and [norm_pdf] *)

Lemma norm_pdf_continuous (x : R) : continuity_pt norm_pdf x.
Proof.
  unfold norm_pdf. reg.
Qed.

Lemma norm_pdf_integrable (a b : R) : a <= b -> Riemann_integrable norm_pdf a b.
Proof.
  intros Hab.
  apply continuity_implies_RiemannInt; [exact Hab | intros; apply norm_pdf_continuous].
Defined.

Lemma derivable_pt_lim_norm_cdf (x : R) : derivable_pt_lim norm_cdf x (norm_pdf x).
Proof. rewrite norm_pdf_phi. apply derivable_pt_lim_Phi_phi. Qed.



(** X2. [norm_cdf] tends to 0 at minus infinity and to 1 at plus
    infinity. *)
Theorem X2_norm_cdf_limits (eps : R) :
  0 < eps ->
  exists m, forall x,
    (x <= - m -> norm_cdf x < eps) /\ (m <= x -> 1 - eps < norm_cdf x).
Proof.
  intros Heps. change norm_cdf with Spec.Phi.
  destruct (Phi_tail eps Heps) as [m Hm].
  exists (Rmax (- m) 0). intros x.
  pose proof (Rmax_l (- m) 0) as Hl.
  split.
  - intros Hx. apply Hm. lra.
  - intros Hx.
    assert (Hopp : Spec.Phi (- x) < eps) by (apply Hm; lra).
    rewrite Phi_opp in Hopp. lra.
Qed.

Lemma X2_witness :
  0 < 0.01 /\
  exists m, forall x,
    (x <= - m -> norm_cdf x < 0.01) /\ (m <= x -> 1 - 0.01 < norm_cdf x).
Proof.
  assert (H : 0 < 0.01) by lra.
  split; [exact H | exact (X2_norm_cdf_limits 0.01 H)].
Defined.

(** X3. [norm_pdf] is the derivative of [norm_cdf] at every point. *)
Theorem X3_norm_pdf_is_density (x : R) :
  derivable_pt_lim norm_cdf x (norm_pdf x).
Proof. apply derivable_pt_lim_norm_cdf. Qed.


(** X5. The integral of [norm_pdf] over a segment is the increase of
    [norm_cdf] over it. *)
Theorem X5_norm_pdf_integral (a b : R) (pr : Riemann_integrable norm_pdf a b) :
  a <= b -> RiemannInt pr = norm_cdf b - norm_cdf a.
Proof.
  intros Hab.
  apply (Gauss.ftc_segment norm_cdf norm_pdf); [exact Hab | |].
  - intros x _. apply derivable_pt_lim_norm_cdf.
  - intros x _. apply norm_pdf_continuous.
Qed.

Lemma X5_witness :
  -1 <= 1 /\
  forall H : -1 <= 1,
    RiemannInt (norm_pdf_integrable (-1) 1 H) = norm_cdf 1 - norm_cdf (-1).
Proof.
  assert (H : -1 <= 1) by lra.
  split; [exact H |].
  intros H'. exact (X5_norm_pdf_integral (-1) 1 (norm_pdf_integrable (-1) 1 H') H).
Defined.

(** *** What the engine and the tool never do *)







(** *** Relations between the fields of a result *)










(** *** How a result changes with the inputs *)










Lemma put_core_parity (F K T sigma : R) :
  put_core F K T sigma = call_core F K T sigma - (F - K).
Proof. pose proof (core_parity F K T sigma). lra. Qed.










(** *** The Greeks as slopes *)

(** A field of what the engine returns (0 when it raises). *)
Definition field_of (f : SPXOptionResult -> R) (o : outcome SPXOptionResult) : R :=
  match o with
  | Return r => f r
  | Raise _ => 0
  end.

Lemma put_price_call_price (F K T D sigma : R) :
  Spec.put_price F K T D sigma = Spec.call_price F K T D sigma - D * (F - K).
Proof.
  rewrite call_price_core, put_price_core, put_core_parity. ring.
Qed.

Lemma put_delta_call_delta (F K T D sigma : R) :
  Spec.put_delta F K T D sigma = Spec.call_delta F K T D sigma - D.
Proof.
  unfold Spec.put_delta, Spec.call_delta. rewrite Phi_opp. ring.
Qed.

Section Slopes.
Variables F K T D sigma : R.
Variable t : OptionType.
Hypothesis HF : 0 < F.
Hypothesis HK : 0 < K.
Hypothesis HT : 0 < T.
Hypothesis Hsigma : 0 < sigma.

Lemma result_price_slope_forward :
  derivable_pt_lim (fun x => price (Spec.result x K T D sigma t)) F
                   (delta (Spec.result F K T D sigma t)).
Proof.
  destruct t; cbn [Spec.result price delta].
  - apply call_price_slope_forward; assumption.
  - rewrite put_delta_call_delta.
    apply Gauss.derivable_pt_lim_local
      with (g := fun x => Spec.call_price x K T D sigma - D * (x - K)) (r := 1);
      [lra | intros; apply put_price_call_price |].
    replace D with (D * (1 - 0)) at 2 by ring.
    apply (derivable_pt_lim_minus (fun x => Spec.call_price x K T D sigma)
                                  (fun x => D * (x - K))).
    + apply call_price_slope_forward; assumption.
    + apply (derivable_pt_lim_scal (fun x => x - K) D).
      apply (derivable_pt_lim_minus id (fun _ => K));
        [apply derivable_pt_lim_id | apply derivable_pt_lim_const].
Qed.

Lemma result_delta_slope_forward :
  derivable_pt_lim (fun x => delta (Spec.result x K T D sigma t)) F
                   (gamma (Spec.result F K T D sigma t)).
Proof.
  destruct t; cbn [Spec.result delta gamma].
  - apply call_delta_slope_forward; assumption.
  - apply Gauss.derivable_pt_lim_local
      with (g := fun x => Spec.call_delta x K T D sigma - D) (r := 1);
      [lra | intros; apply put_delta_call_delta |].
    replace (Spec.gamma F K T D sigma) with (Spec.gamma F K T D sigma - 0) by ring.
    apply (derivable_pt_lim_minus (fun x => Spec.call_delta x K T D sigma)
                                  (fun _ => D)).
    + apply call_delta_slope_forward; assumption.
    + apply derivable_pt_lim_const.
Qed.

Lemma result_price_slope_volatility :
  derivable_pt_lim (fun x => price (Spec.result F K T D x t)) sigma
                   (100 * vega (Spec.result F K T D sigma t)).
Proof.
  destruct t; cbn [Spec.result price vega].
  - apply call_price_slope_volatility; assumption.
  - apply Gauss.derivable_pt_lim_local
      with (g := fun x => Spec.call_price F K T D x - D * (F - K)) (r := 1);
      [lra | intros; apply put_price_call_price |].
    replace (100 * Spec.vega F K T D sigma)
      with (100 * Spec.vega F K T D sigma - 0) by ring.
    apply (derivable_pt_lim_minus (fun x => Spec.call_price F K T D x)
                                  (fun _ => D * (F - K))).
    + apply call_price_slope_volatility; assumption.
    + apply derivable_pt_lim_const.
Qed.

Variable a : option_arg.
Hypothesis Hres : resolves a t.

(** Near a valid forward, and near a valid volatility, the engine returns
    the closed form. *)
Lemma engine_near_forward (f : SPXOptionResult -> R) (x : R) :
  Rabs (x - F) < F ->
  field_of f (black76_price x K T D sigma a) = f (Spec.result x K T D sigma t).
Proof.
  intros Hx. apply Rabs_def2 in Hx.
  rewrite (black76_price_closed_form x K T D sigma a t); [reflexivity | | exact Hres].
  repeat split; (assumption || lra).
Qed.

Lemma engine_near_volatility (f : SPXOptionResult -> R) (x : R) :
  Rabs (x - sigma) < sigma ->
  field_of f (black76_price F K T D x a) = f (Spec.result F K T D x t).
Proof.
  intros Hx. apply Rabs_def2 in Hx.
  rewrite (black76_price_closed_form F K T D x a t); [reflexivity | | exact Hres].
  repeat split; (assumption || lra).
Qed.

Lemma engine_at (f : SPXOptionResult -> R) :
  field_of f (black76_price F K T D sigma a) = f (Spec.result F K T D sigma t).
Proof.
  rewrite (black76_price_closed_form F K T D sigma a t); [reflexivity | | exact Hres].
  repeat split; assumption.
Qed.

End Slopes.

(** X18. The delta the engine returns is the slope of the price it returns,
    taken in the forward, for a call and for a put. *)
Theorem X18_delta_is_price_slope
    (F K T D sigma : R) (a : option_arg) (t : OptionType) :
  0 < F -> 0 < K -> 0 < T -> 0 < sigma -> resolves a t ->
  derivable_pt_lim (fun x => field_of price (black76_price x K T D sigma a)) F
                   (field_of delta (black76_price F K T D sigma a)).
Proof.
  intros HF HK HT Hs Hres.
  rewrite (engine_at F K T D sigma t HF HK HT Hs a Hres).
  apply Gauss.derivable_pt_lim_local
    with (g := fun x => price (Spec.result x K T D sigma t)) (r := F); [exact HF | |].
  - intros x Hx. apply (engine_near_forward F K T D sigma t); assumption.
  - apply result_price_slope_forward; assumption.
Qed.

Lemma X18_witness :
  (0 < 5500 /\ 0 < 5000 /\ 0 < 1 /\ 0 < 0.15 /\ resolves (Str "put") PUT) /\
  derivable_pt_lim
    (fun x => field_of price (black76_price x 5000 1 0.99 0.15 (Str "put"))) 5500
    (field_of delta (black76_price 5500 5000 1 0.99 0.15 (Str "put"))).
Proof.
  assert (H1 : 0 < 5500) by lra. assert (H2 : 0 < 5000) by lra.
  assert (H3 : 0 < 1) by lra. assert (H4 : 0 < 0.15) by lra.
  assert (H5 : resolves (Str "put") PUT) by reflexivity.
  split; [repeat split; assumption |].
  exact (X18_delta_is_price_slope 5500 5000 1 0.99 0.15 _ _ H1 H2 H3 H4 H5).
Defined.

(** X19. The gamma the engine returns is the slope of the delta it returns,
    taken in the forward, for a call and for a put. *)
Theorem X19_gamma_is_delta_slope
    (F K T D sigma : R) (a : option_arg) (t : OptionType) :
  0 < F -> 0 < K -> 0 < T -> 0 < sigma -> resolves a t ->
  derivable_pt_lim (fun x => field_of delta (black76_price x K T D sigma a)) F
                   (field_of gamma (black76_price F K T D sigma a)).
Proof.
  intros HF HK HT Hs Hres.
  rewrite (engine_at F K T D sigma t HF HK HT Hs a Hres).
  apply Gauss.derivable_pt_lim_local
    with (g := fun x => delta (Spec.result x K T D sigma t)) (r := F); [exact HF | |].
  - intros x Hx. apply (engine_near_forward F K T D sigma t); assumption.
  - apply result_delta_slope_forward; assumption.
Qed.

Lemma X19_witness :
  (0 < 5500 /\ 0 < 5000 /\ 0 < 1 /\ 0 < 0.15 /\ resolves (Str "call") CALL) /\
  derivable_pt_lim
    (fun x => field_of delta (black76_price x 5000 1 0.99 0.15 (Str "call"))) 5500
    (field_of gamma (black76_price 5500 5000 1 0.99 0.15 (Str "call"))).
Proof.
  assert (H1 : 0 < 5500) by lra. assert (H2 : 0 < 5000) by lra.
  assert (H3 : 0 < 1) by lra. assert (H4 : 0 < 0.15) by lra.
  assert (H5 : resolves (Str "call") CALL) by reflexivity.
  split; [repeat split; assumption |].
  exact (X19_gamma_is_delta_slope 5500 5000 1 0.99 0.15 _ _ H1 H2 H3 H4 H5).
Defined.

(** X20. The vega the engine returns is the slope of the price it returns,
    taken in the volatility and quoted per percentage point: the slope is a
    hundred times the vega, for a call and for a put. *)
Theorem X20_vega_is_price_slope
    (F K T D sigma : R) (a : option_arg) (t : OptionType) :
  0 < F -> 0 < K -> 0 < T -> 0 < sigma -> resolves a t ->
  derivable_pt_lim (fun x => field_of price (black76_price F K T D x a)) sigma
                   (100 * field_of vega (black76_price F K T D sigma a)).
Proof.
  intros HF HK HT Hs Hres.
  rewrite (engine_at F K T D sigma t HF HK HT Hs a Hres).
  apply Gauss.derivable_pt_lim_local
    with (g := fun x => price (Spec.result F K T D x t)) (r := sigma); [exact Hs | |].
  - intros x Hx. apply (engine_near_volatility F K T D sigma t); assumption.
  - apply result_price_slope_volatility; assumption.
Qed.

Lemma X20_witness :
  (0 < 5500 /\ 0 < 5000 /\ 0 < 1 /\ 0 < 0.15 /\ resolves (Str "put") PUT) /\
  derivable_pt_lim
    (fun x => field_of price (black76_price 5500 5000 1 0.99 x (Str "put"))) 0.15
    (100 * field_of vega (black76_price 5500 5000 1 0.99 0.15 (Str "put"))).
Proof.
  assert (H1 : 0 < 5500) by lra. assert (H2 : 0 < 5000) by lra.
  assert (H3 : 0 < 1) by lra. assert (H4 : 0 < 0.15) by lra.
  assert (H5 : resolves (Str "put") PUT) by reflexivity.
  split; [repeat split; assumption |].
  exact (X20_vega_is_price_slope 5500 5000 1 0.99 0.15 _ _ H1 H2 H3 H4 H5).
Defined.

(** *** At the money *)





(** *** The option type *)

Lemma lower_ascii_idempotent (c : ascii) : lower_ascii (lower_ascii c) = lower_ascii c.
Proof. destruct c as [[] [] [] [] [] [] [] []]; reflexivity. Qed.

Lemma lower_upper_ascii (c : ascii) : lower_ascii (upper_ascii c) = lower_ascii c.
Proof. destruct c as [[] [] [] [] [] [] [] []]; reflexivity. Qed.

Lemma lower_idempotent (s : string) : lower (lower s) = lower s.
Proof.
  induction s as [| c s IH]; [reflexivity |].
  cbn [lower]. rewrite lower_ascii_idempotent, IH. reflexivity.
Qed.

Lemma lower_upper (s : string) : lower (upper s) = lower s.
Proof.
  induction s as [| c s IH]; [reflexivity |].
  cbn [lower upper]. rewrite lower_upper_ascii, IH. reflexivity.
Qed.

(** X22. Looking a member up by its value gives the member back, a string
    that names a member is that member's value, and the engine treats a
    member exactly as it treats the member's value. *)
Theorem X22_option_type_round_trip :
  (forall t, OptionType_of (OptionType_value t) = Return t) /\
  (forall s t, OptionType_of s = Return t -> OptionType_value t = s) /\
  (forall F K T D sigma t,
     black76_price F K T D sigma (Member t)
     = black76_price F K T D sigma (Str (OptionType_value t))).
Proof.
  split; [intros []; reflexivity |]. split; [| reflexivity].
  intros s [] H.
  - apply OptionType_of_call in H. subst s. reflexivity.
  - apply OptionType_of_put in H. subst s. reflexivity.
Qed.

Lemma X22_witness :
  OptionType_of "put" = Return PUT /\ OptionType_value PUT = "put".
Proof.
  assert (H : OptionType_of "put" = Return PUT) by reflexivity.
  split; [exact H |].
  exact (proj1 (proj2 X22_option_type_round_trip) "put" PUT H).
Defined.

(** X23. The engine does not see the case of an ASCII option-type string:
    lower-casing or upper-casing the argument changes neither the result nor
    the error, whatever the other inputs. *)
Theorem X23_engine_ignores_case (F K T D sigma : R) (s : string) :
  black76_price F K T D sigma (Str (lower s)) = black76_price F K T D sigma (Str s) /\
  black76_price F K T D sigma (Str (upper s)) = black76_price F K T D sigma (Str s).
Proof.
  unfold black76_price. cbn [as_str].
  rewrite lower_idempotent, lower_upper. split; reflexivity.
Qed.

(** *** Rounded output *)











